(** * Commit history resolution (repo_commit.go): a shallow embedding

    The development follows the source file top to bottom: reference
    resolution ([getCommitIdOfRef], [getCommitIdOfPackedRef]), the memoizing
    commit store ([getCommit]), the first-parent range ([CommitsBetween]),
    the chronological merge-list builder ([commitsBefore]) and the query
    facade built on the history walker. *)

From Stdlib Require Import ZArith Lia Ascii String.
From stdpp Require Import gmap strings list.

(** ** Errors

    Go's [error] values.  One constructor per [errors.New]/[fmt.Errorf] of
    the source, and one for failures handed up by the standard library or by
    the collaborators (object store, commit decoder), which carry their own
    text. *)
Inductive error : Type :=
| ErrSha1TooShort                 (* errors.New("sha1 hash too short") *)
| ErrWrongSha1 (s : string)       (* fmt.Errorf("heads file wrong sha1 string %s", sha1) *)
| ErrRefNotFound                  (* errors.New("Ref not found in packed-refs") *)
| ErrOther (msg : string).        (* os, bufio, object store, decoder *)

(** A Go pair [(v, err)] of which exactly one side is meaningful. *)
Inductive result (A : Type) : Type :=
| Ok (a : A)
| Err (e : error).
Arguments Ok {A} a.
Arguments Err {A} e.

(** ** Strings as the code uses them *)

Definition newline : ascii := "010"%char.

(** [strings.Contains(s, substr)]. *)
Fixpoint Contains (s substr : string) : bool :=
  if String.prefix substr s then true
  else match s with
       | EmptyString => false
       | String _ s' => Contains s' substr
       end.

(** The text the capture group and the closing newline of [refRexp] match
    at the head of [s]: everything up to the first newline; no match when
    [s] holds no newline (the dot of the pattern does not match one). *)
Fixpoint untilNewline (s : string) : option string :=
  match s with
  | EmptyString => None
  | String c s' =>
      if Ascii.eqb c newline then Some EmptyString
      else String c <$> untilNewline s'
  end.

(** [rest] when [s] is [pre] followed by [rest]. *)
Fixpoint stripPrefix (pre s : string) : option string :=
  match pre with
  | EmptyString => Some s
  | String a pre' =>
      match s with
      | EmptyString => None
      | String b s' => if Ascii.eqb a b then stripPrefix pre' s' else None
      end
  end.

(** [refRexp.FindAllStringSubmatch(s, 1)], where [refRexp] is the text
    "ref: ", a capture group of any characters but newline, and a newline;
    reduced to what the caller reads: [None] for a nil result, [Some t] with
    [t = allMatches[0][1]] otherwise.  The pattern is not anchored, so the
    leftmost position at which it matches is taken. *)
Fixpoint refRexpSubmatch (s : string) : option string :=
  match s with
  | EmptyString => None
  | String _ s' =>
      match stripPrefix "ref: " s ≫= untilNewline with
      | Some t => Some t
      | None => refRexpSubmatch s'
      end
  end.

(** ** The files the resolver reads *)

(** What [bufio.Scanner] yields on the packed-refs file: the lines in order,
    then the value of [scan.Err()]. *)
Record PackedRefs : Type := mkPackedRefs {
  packedLines : list string;
  packedScanErr : option error
}.

(** The part of the repository directory the resolver looks at.
    [looseFiles] holds the files [ioutil.ReadFile] can read, keyed by the
    ref path joined to [repo.Path]; a key that is absent makes [ReadFile]
    fail.  [packedRefs] is the outcome of opening and scanning
    [packed-refs]. *)
Record RefStore : Type := mkRefStore {
  looseFiles : gmap string string;
  packedRefs : result PackedRefs
}.

Section Resolver.

(** [IsSha1] is declared outside this file; the resolver only needs its
    verdict on a 40-byte string. *)
Variable IsSha1 : string -> bool.

(** The [for scan.Scan()] loop of [getCommitIdOfPackedRef]. *)
Fixpoint scanPackedLines (lines : list string) (refpath : string)
  : option string :=
  match lines with
  | [] => None
  | text :: rest =>
      if Contains text refpath then Some text
      else scanPackedLines rest refpath
  end.

Definition getCommitIdOfPackedRef (fs : RefStore) (refpath : string)
  : result string :=
  match packedRefs fs with
  | Err e => Err e
  | Ok p =>
      match scanPackedLines (packedLines p) refpath with
      | Some bytes => Ok bytes
      | None =>
          match packedScanErr p with
          | Some e => Err e
          | None => Err ErrRefNotFound
          end
      end
  end.

(** The first six lines of the [start:] block: the loose file, and on any
    read error the packed-refs table. *)
Definition readRef (fs : RefStore) (refpath : string) : result string :=
  match looseFiles fs !! refpath with
  | Some f => Ok f
  | None => getCommitIdOfPackedRef fs refpath
  end.

(** What the code makes of content on which [refRexp] found nothing. *)
Definition parseSha1 (f : string) : result string :=
  if (String.length f <? 40)%nat then Err ErrSha1TooShort
  else
    let sha1 := String.substring 0 40 f in
    if IsSha1 sha1 then Ok sha1 else Err (ErrWrongSha1 sha1).

(** [getCommitIdOfRef]: the [goto start] loop, one unit of fuel per pass.
    [None] means the fuel ran out before the loop was left. *)
Fixpoint getCommitIdOfRef (fuel : nat) (fs : RefStore) (refpath : string)
  : option (result string) :=
  match fuel with
  | O => None
  | S fuel' =>
      match readRef fs refpath with
      | Err e => Some (Err e)
      | Ok f =>
          match refRexpSubmatch f with
          | None => Some (parseSha1 f)
          | Some target => getCommitIdOfRef fuel' fs target
          end
      end
  end.

Definition GetCommitIdOfBranch (fuel : nat) (fs : RefStore) (branchName : string) :=
  getCommitIdOfRef fuel fs ("refs/heads/" +:+ branchName).

Definition GetCommitIdOfTag (fuel : nat) (fs : RefStore) (tagName : string) :=
  getCommitIdOfRef fuel fs ("refs/tags/" +:+ tagName).

End Resolver.

(** ** Identifiers and commits

    [sha1], [Commit] and its methods are declared in other files of the
    package; what follows is the part of them this file relies on. *)

(** Modelled from the spec: the 20-byte identifier type [sha1] ("fixed-length
    content-hash identifier ... with validity checking and equality"), here
    the number its bytes spell; only equality and use as a map key matter. *)
Definition sha1 : Type := N.

#[global] Instance sha1_eq_dec : EqDecision sha1 := N.eq_dec.
#[global] Instance sha1_countable : Countable sha1 := N_countable.

(** [id.Equal(other)]. *)
Definition Equal (a b : sha1) : bool := bool_decide (a = b).

(** Modelled from the spec: the committer identity of a commit; [When] is
    the instant of the [time.Time], so that [Equal], [After] and [Before]
    are [=], [>] and [<] on it. *)
Record Signature : Type := mkSignature {
  Name : string;
  Email : string;
  When : Z
}.

(** Modelled from the spec: the decoded commit ("identifier, zero or more
    parent identifiers (ordered), committer identity + timestamp, message
    text").  The back-reference [repo] of the Go struct is not a field here:
    the methods that follow it take the repository as an argument. *)
Record Commit : Type := mkCommit {
  Id : sha1;
  parents : list sha1;
  Committer : Signature;
  CommitMessage : string
}.

Definition withId (id : sha1) (c : Commit) : Commit :=
  {| Id := id; parents := parents c; Committer := Committer c;
     CommitMessage := CommitMessage c |}.

Definition ParentCount (c : Commit) : nat := length (parents c).

(** Modelled from the spec: [c.ParentId(n)], the [n]-th parent identifier,
    an error when there is none. *)
Definition ParentId (c : Commit) (n : nat) : result sha1 :=
  match parents c !! n with
  | Some id => Ok id
  | None => Err (ErrOther "Parent number does not exist")
  end.

(** ** The commit store *)

(** One call of a collaborator, for the record of I/O kept next to the
    cache. *)
Inductive ioEvent : Type :=
| EvGetRawObject (id : sha1)
| EvReadAll (id : sha1)
| EvParseCommitData (id : sha1).

(** The repository handle.  [commitCache] is [None] for Go's nil map.
    [ioTrace] is not a field of the Go struct: it records, latest first, the
    collaborator calls made through the handle. *)
Record Repository : Type := mkRepository {
  Path : string;
  commitCache : option (gmap sha1 Commit);
  ioTrace : list ioEvent
}.

Definition setCache (m : gmap sha1 Commit) (repo : Repository) : Repository :=
  {| Path := Path repo; commitCache := Some m; ioTrace := ioTrace repo |}.

Definition logIO (ev : ioEvent) (repo : Repository) : Repository :=
  {| Path := Path repo; commitCache := commitCache repo;
     ioTrace := ev :: ioTrace repo |}.

(** Reading a map, nil or not: [c, ok := repo.commitCache[id]]. *)
Definition cacheLookup (repo : Repository) (id : sha1) : option Commit :=
  match commitCache repo with
  | Some m => m !! id
  | None => None
  end.

(** The stream of [GetRawObject], as what [ioutil.ReadAll] gets out of it. *)
Definition ReadCloser : Type := result string.

Section Store.

(** The collaborators: the object store and the commit decoder. *)
Variable GetRawObject : sha1 -> result ReadCloser.
Variable parseCommitData : string -> result Commit.

(** [getCommit] below the cache test: fetch, read, decode, stamp, store.
    [m] is the cache map at that point (never nil). *)
Definition getCommitMiss (id : sha1) (m : gmap sha1 Commit)
                         (repo : Repository) : result Commit * Repository :=
  let repo := logIO (EvGetRawObject id) repo in
  match GetRawObject id with
  | Err e => (Err e, repo)
  | Ok dataRc =>
      let repo := logIO (EvReadAll id) repo in
      match dataRc with
      | Err e => (Err e, repo)
      | Ok data =>
          let repo := logIO (EvParseCommitData id) repo in
          match parseCommitData data with
          | Err e => (Err e, repo)
          | Ok commit =>
              let commit := withId id commit in
              (Ok commit, setCache (<[id := commit]> m) repo)
          end
      end
  end.

Definition getCommit (id : sha1) (repo : Repository)
  : result Commit * Repository :=
  match commitCache repo with
  | Some m =>
      match m !! id with
      | Some c => (Ok c, repo)
      | None => getCommitMiss id m repo
      end
  | None => getCommitMiss id ∅ (setCache ∅ repo)
  end.

(** Modelled from the spec: [c.Parent(n)], the [n]-th parent fetched
    through the commit store of the owning repository ("a back-reference
    to its owning repository ..., used for lazy traversal of parents"). *)
Definition Parent (c : Commit) (n : nat) (repo : Repository)
  : result Commit * Repository :=
  match ParentId c n with
  | Err e => (Err e, repo)
  | Ok id => getCommit id repo
  end.

(** ** CommitsBetween *)

(** The [for] loop of [CommitsBetween]; [l] is the list built so far. *)
Fixpoint commitsBetweenLoop (fuel : nat) (before cur : Commit)
    (l : list Commit) (repo : Repository)
  : option (result (list Commit)) * Repository :=
  match fuel with
  | O => (None, repo)
  | S fuel' =>
      if Equal (Id cur) (Id before) then (Some (Ok l), repo)
      else
        let l := l ++ [cur] in
        if (ParentCount cur =? 0)%nat then (Some (Ok l), repo)
        else
          match Parent cur 0 repo with
          | (Err e, repo) => (Some (Err e), repo)
          | (Ok cur', repo) => commitsBetweenLoop fuel' before cur' l repo
          end
  end.

(** [last] is a pointer that the code tests against nil; [before] is
    dereferenced without a test. *)
Definition CommitsBetween (fuel : nat) (last : option Commit)
    (before : Commit) (repo : Repository)
  : option (result (list Commit)) * Repository :=
  match last with
  | None => (Some (Ok []), repo)
  | Some last =>
      if (ParentCount last =? 0)%nat then (Some (Ok []), repo)
      else commitsBetweenLoop fuel before last [] repo
  end.

End Store.

(** ** container/list, as far as [commitsBefore] uses it

    An element of a Go list is a heap cell with an identity of its own; an
    [*list.Element] is modelled by the number given to the cell when it was
    allocated, and the list by its cells in order. *)
Record Element : Type := mkElement {
  elemId : nat;
  Value : Commit
}.

Record List : Type := mkList {
  elements : list Element;
  allocated : nat
}.

(** [list.New()]. *)
Definition New : List := mkList [] 0.

(** [l.PushBack(v)]: the new element and the list. *)
Definition PushBack (v : Commit) (l : List) : Element * List :=
  let e := mkElement (allocated l) v in
  (e, mkList (elements l ++ [e]) (S (allocated l))).

(** The cells before an element, the element, and the cells after it
    (its chain of [Next()]). *)
Definition cursor : Type := list Element * Element * list Element.

(** Dereferencing an element pointer inside a list. *)
Fixpoint locate (p : nat) (before : list Element) (l : list Element)
  : option cursor :=
  match l with
  | [] => None
  | e :: rest =>
      if (elemId e =? p)%nat then Some (before, e, rest)
      else locate p (before ++ [e]) rest
  end.

(** [l.InsertAfter(v, mark)] with [mark] given as a cursor. *)
Definition InsertAfter (v : Commit) (mark : cursor) (l : List)
  : Element * List :=
  let '(before, m, after) := mark in
  let e := mkElement (allocated l) v in
  (e, mkList (before ++ m :: e :: after) (S (allocated l))).

Definition whenOf (e : Element) : Z := When (Committer (Value e)).

(** The scan of [commitsBefore] for the place of [commit], started at the
    cursor of [in].  [None] is the [return nil] of the loop (the commit is
    already in the list); [Some c] is the cursor at which the loop breaks.
    The test [in == nil] of the source never holds inside the loop: [in]
    starts at a non-nil [parent] and only moves to a non-nil [in.Next()]. *)
Fixpoint scanForSlot (commit : Commit) (before : list Element)
    (in_ : Element) (after : list Element) : option cursor :=
  if Equal (Id (Value in_)) (Id commit) then None
  else
    match after with
    | [] => Some (before, in_, [])
    | next :: after' =>
        if (whenOf in_ =? When (Committer commit))%Z then
          Some (before, in_, after)
        else if (whenOf in_ >? When (Committer commit))%Z &&
                (whenOf next <? When (Committer commit))%Z then
          Some (before, in_, after)
        else scanForSlot commit (before ++ [in_]) next after'
    end.

(** What a call of [commitsBefore] hands back: the error (nil or not), and
    the shared list and the repository as the call leaves them. *)
Record cbState : Type := mkCbState {
  cbErr : option error;
  cbList : List;
  cbRepo : Repository
}.

Section MergeList.

Variable GetRawObject : sha1 -> result ReadCloser.
Variable parseCommitData : string -> result Commit.

(** The loop over the parents that ends [commitsBefore]; [rec] stands for
    the call [repo.commitsBefore(lock, l, pr, id, 0)] of its body.  The loop
    over [i] below [ParentCount], in which [ParentId(i)] cannot fail, is the
    loop over the parent identifiers in order. *)
Fixpoint commitsBeforeParents
    (rec : List -> sha1 -> Repository -> option cbState)
    (ids : list sha1) (l : List) (repo : Repository) : option cbState :=
  match ids with
  | [] => Some (mkCbState None l repo)
  | id :: ids' =>
      match rec l id repo with
      | None => None
      | Some st =>
          match cbErr st with
          | Some err => Some st
          | None => commitsBeforeParents rec ids' (cbList st) (cbRepo st)
          end
      end
  end.

(** [commitsBefore]; the arguments [lock] and [limit] are never read and
    are left out.  [parent] is the anchor element, [None] for nil.  The
    result is [None] when the fuel runs out, and when [parent] is not a
    cell of [l], which no call made by [getCommitsBefore] leads to. *)
Fixpoint commitsBefore (fuel : nat) (l : List) (parent : option nat)
    (id : sha1) (repo : Repository) : option cbState :=
  match fuel with
  | O => None
  | S fuel' =>
      match getCommit GetRawObject parseCommitData id repo with
      | (Err err, repo) => Some (mkCbState (Some err) l repo)
      | (Ok commit, repo) =>
          let recurse (e : Element) (l : List) :=
            let pr := if (1 <? ParentCount commit)%nat
                      then Some (elemId e) else parent in
            commitsBeforeParents
              (fun l id repo => commitsBefore fuel' l pr id repo)
              (parents commit) l repo in
          match parent with
          | None =>
              let '(e, l) := PushBack commit l in recurse e l
          | Some p =>
              match locate p [] (elements l) with
              | None => None
              | Some (before, in_, after) =>
                  match scanForSlot commit before in_ after with
                  | None => Some (mkCbState None l repo)
                  | Some mark =>
                      let '(e, l) := InsertAfter commit mark l in
                      recurse e l
                  end
              end
          end
      end
  end.

Definition getCommitsBefore (fuel : nat) (id : sha1) (repo : Repository)
  : option cbState :=
  commitsBefore fuel New None id repo.

(** [NewIdFromString] is declared outside this file. *)
Variable NewIdFromString : string -> result sha1.

(** [CommitsBefore]: [(nil, err)] for a bad identifier, otherwise the pair
    [(l, err)] of [getCommitsBefore]. *)
Definition CommitsBefore (fuel : nat) (commitId : string)
    (repo : Repository) : option (option List * option error * Repository) :=
  match NewIdFromString commitId with
  | Err err => Some (None, Some err, repo)
  | Ok id =>
      match getCommitsBefore fuel id repo with
      | None => None
      | Some st => Some (Some (cbList st), cbErr st, cbRepo st)
      end
  end.

(** The values of a list, front to back. *)
Definition listValues (l : List) : list Commit := Value <$> elements l.

End MergeList.

(** ** The history walker and its visitors

    [walkHistory], [walkFilteredHistory], [makePager] and the filters they
    are given are defined in another file of the package; the definitions
    of this section follow the description of the ancestry walker. *)

Definition ItemsPerPage : nat := 50.
Definition ItemsPerSearch : nat := 100.

(** Modelled from the spec: the answer of a visitor on a commit
    ("keep-and-continue, skip-and-continue, or stop"); the bodies of the
    visitors are missing from the source. *)
Inductive decision : Type :=
| KeepAndContinue
| SkipAndContinue
| Stop.

(** The counters a pager closes over. *)
Record pagerState : Type := mkPagerState {
  pgSkipped : nat;
  pgKept : nat
}.

(** Modelled from the spec: [makePager(filter, skip, count)], missing from
    the source: "skip the first N would-be-kept commits, then keep the next
    M, then stop"; a commit the filter rejects is not a would-be-kept one
    ([filter] is [None] for nil). *)
Definition makePager (filter : option (Commit -> bool)) (skip count : nat)
    (s : pagerState) (c : Commit) : decision * pagerState :=
  if match filter with Some f => f c | None => true end then
    if (pgSkipped s <? skip)%nat then
      (SkipAndContinue, mkPagerState (S (pgSkipped s)) (pgKept s))
    else if (pgKept s <? count)%nat then
      (KeepAndContinue, mkPagerState (pgSkipped s) (S (pgKept s)))
    else (Stop, s)
  else (SkipAndContinue, s).

(** The walk in progress: the result list, the visitor's counters, the
    repository, whether a visitor said stop, and the error met, if any. *)
Record walkState : Type := mkWalkState {
  wsResult : list Commit;
  wsPager : pagerState;
  wsRepo : Repository;
  wsStopped : bool;
  wsErr : option error
}.

Section Walker.

Variable GetRawObject : sha1 -> result ReadCloser.
Variable parseCommitData : string -> result Commit.

(** The loop of the traversal over the parents of [c], from the [i]-th on,
    [n] of them left; [rec] stands for the traversal of one parent. *)
Fixpoint walkParents (rec : Commit -> walkState -> option walkState)
    (c : Commit) (n i : nat) (st : walkState) : option walkState :=
  match n with
  | O => Some st
  | S n' =>
      match Parent GetRawObject parseCommitData c i (wsRepo st) with
      | (Err e, repo) =>
          Some (mkWalkState (wsResult st) (wsPager st) repo false (Some e))
      | (Ok p, repo) =>
          match rec p (mkWalkState (wsResult st) (wsPager st) repo
                         false None) with
          | None => None
          | Some st' =>
              if wsStopped st' || bool_decide (wsErr st' <> None)
              then Some st'
              else walkParents rec c n' (S i) st'
          end
      end
  end.

(** Modelled from the spec: the traversal behind [walkHistory] and
    [walkFilteredHistory], missing from the source: depth first from the
    start commit, parents in order; a commit whose identifier is already
    in the result is not visited again; with a relevance filter, a commit
    the filter does not report is traversed but not offered to the
    visitor; stop ends the walk at once; a parent that cannot be fetched
    aborts it. *)
Fixpoint walk (fuel : nat) (visit : pagerState -> Commit -> decision * pagerState)
    (relevance : option (Commit -> bool)) (c : Commit) (st : walkState)
  : option walkState :=
  match fuel with
  | O => None
  | S fuel' =>
      if existsb (fun k => Equal (Id k) (Id c)) (wsResult st) then Some st
      else
        let '(d, pg) :=
          if match relevance with Some r => r c | None => true end
          then visit (wsPager st) c
          else (SkipAndContinue, wsPager st) in
        match d with
        | Stop =>
            Some (mkWalkState (wsResult st) pg (wsRepo st) true None)
        | _ =>
            let res := match d with
                       | KeepAndContinue => wsResult st ++ [c]
                       | _ => wsResult st
                       end in
            walkParents (walk fuel' visit relevance) c (ParentCount c) 0%nat
              (mkWalkState res pg (wsRepo st) false None)
        end
  end.

Definition walkFrom (fuel : nat) visit relevance (commit : Commit)
    (repo : Repository) : option (result (list Commit)) * Repository :=
  match walk fuel visit relevance commit
          (mkWalkState [] (mkPagerState 0 0) repo false None) with
  | None => (None, repo)
  | Some st =>
      match wsErr st with
      | Some e => (Some (Err e), wsRepo st)
      | None => (Some (Ok (wsResult st)), wsRepo st)
      end
  end.

(** Modelled from the spec: [walkHistory(commit, visitor)]. *)
Definition walkHistory (fuel : nat) (commit : Commit) visit
    (repo : Repository) :=
  walkFrom fuel visit None commit repo.

(** Modelled from the spec: [walkFilteredHistory(commit, visitor,
    comparator)]. *)
Definition walkFilteredHistory (fuel : nat) (commit : Commit) visit
    (comparator : Commit -> bool) (repo : Repository) :=
  walkFrom fuel visit (Some comparator) commit repo.

(** ** The query facade *)

(** [makeHistorySearcher], [makePathChecker] and [makePathComparator] are
    declared outside this file: the keyword matcher (which may reject the
    keyword), and the two path predicates of the tree-diff collaborator. *)
Variable makeHistorySearcher : string -> result (Commit -> bool).
Variable makePathChecker : string -> Commit -> bool.
Variable makePathComparator : string -> Commit -> bool.
Variable NewIdFromString : string -> result sha1.

Definition searchCommits (fuel : nat) (id : sha1) (keyword : string)
    (repo : Repository) : option (result (list Commit)) * Repository :=
  match getCommit GetRawObject parseCommitData id repo with
  | (Err err, repo) => (Some (Err err), repo)
  | (Ok commit, repo) =>
      match makeHistorySearcher keyword with
      | Err err => (Some (Err err), repo)
      | Ok searcher =>
          let pager := makePager (Some searcher) 0 ItemsPerSearch in
          walkHistory fuel commit pager repo
      end
  end.

Definition SearchCommits (fuel : nat) (commitId keyword : string)
    (repo : Repository) : option (result (list Commit)) * Repository :=
  match NewIdFromString commitId with
  | Err err => (Some (Err err), repo)
  | Ok id => searchCommits fuel id keyword repo
  end.

(** The result [Ok None] is the pair [(nil, nil)] of the source. *)
Definition getCommitOfRelPath (fuel : nat) (id : sha1) (path : string)
    (repo : Repository) : option (result (option Commit)) * Repository :=
  match getCommit GetRawObject parseCommitData id repo with
  | (Err err, repo) => (Some (Err err), repo)
  | (Ok commit, repo) =>
      let checker := makePathChecker path in
      let pager := makePager (Some checker) 0 1 in
      let comparator := makePathComparator path in
      match walkFilteredHistory fuel commit pager comparator repo with
      | (None, repo) => (None, repo)
      | (Some (Err err), repo) => (Some (Err err), repo)
      | (Some (Ok res), repo) =>
          match res with
          | [] => (Some (Ok None), repo)
          | front :: _ => (Some (Ok (Some front)), repo)
          end
      end
  end.

Definition GetCommitOfRelPath (fuel : nat) (commitId relPath : string)
    (repo : Repository) : option (result (option Commit)) * Repository :=
  match NewIdFromString commitId with
  | Err err => (Some (Err err), repo)
  | Ok id => getCommitOfRelPath fuel id relPath repo
  end.

End Walker.

(** ** Following symbolic references, as a relation on ref paths *)

Section Hops.

Variable IsSha1 : string -> bool.

(** The ref path a pass of the [start:] loop jumps to, if it jumps. *)
Definition hop (fs : RefStore) (refpath : string) : option string :=
  match readRef fs refpath with
  | Ok f => refRexpSubmatch f
  | Err _ => None
  end.

(** The ref path reached after [n] jumps. *)
Fixpoint hops (fs : RefStore) (n : nat) (refpath : string) : option string :=
  match n with
  | O => Some refpath
  | S n' =>
      match hop fs refpath with
      | Some target => hops fs n' target
      | None => None
      end
  end.

End Hops.

(** True when [s] holds no newline. *)
Fixpoint noNewline (s : string) : bool :=
  match s with
  | EmptyString => true
  | String c s' => negb (Ascii.eqb c newline) && noNewline s'
  end.

(** ** The commit graph behind a repository handle *)

Section Graph.

Variable GetRawObject : sha1 -> result ReadCloser.
Variable parseCommitData : string -> result Commit.

(** What the collaborators make of an identifier, with no cache in
    between: the commit a miss of [getCommit] stores and returns. *)
Definition fetchCommit (id : sha1) : result Commit :=
  match GetRawObject id with
  | Err e => Err e
  | Ok dataRc =>
      match dataRc with
      | Err e => Err e
      | Ok data =>
          match parseCommitData data with
          | Err e => Err e
          | Ok commit => Ok (withId id commit)
          end
      end
  end.

(** Every cached commit is the one a fetch of its key yields. *)
Definition cacheCoherent (repo : Repository) : Prop :=
  forall id c, cacheLookup repo id = Some c -> fetchCommit id = Ok c.

(** The first-parent range as the description of [commitsBetween] words
    it: every commit of the first-parent chain from [cur] on is appended,
    up to and without the first one equal to [before], or up to and with
    a parentless one. *)
Fixpoint specCommitsBetween (fuel : nat) (before cur : Commit)
  : option (result (list Commit)) :=
  match fuel with
  | O => None
  | S fuel' =>
      if Equal (Id cur) (Id before) then Some (Ok [])
      else
        match parents cur with
        | [] => Some (Ok [cur])
        | p :: _ =>
            match fetchCommit p with
            | Err e => Some (Err e)
            | Ok c =>
                match specCommitsBetween fuel' before c with
                | Some (Ok l) => Some (Ok (cur :: l))
                | r => r
                end
            end
        end
  end.

(** The events of a miss, latest first, by how far the miss got. *)
Definition missEvents (id : sha1) : list ioEvent :=
  match GetRawObject id with
  | Err _ => [EvGetRawObject id]
  | Ok (Err _) => [EvReadAll id; EvGetRawObject id]
  | Ok (Ok _) => [EvParseCommitData id; EvReadAll id; EvGetRawObject id]
  end.

End Graph.

(** The timestamps of a list never go up from one element to the
    next. *)
Fixpoint nonIncreasing (ts : list Z) : Prop :=
  match ts with
  | [] => True
  | t :: rest =>
      match rest with
      | [] => True
      | u :: _ => (u <= t)%Z
      end /\ nonIncreasing rest
  end.

Definition commitTime (c : Commit) : Z := When (Committer c).

(** ** The invariants of the merge-list builder *)

(** The list is in non-increasing order of committer timestamp. *)
Definition sortedList (l : List) : Prop :=
  nonIncreasing (whenOf <$> elements l).

(** Every cell of the list was numbered by the list. *)
Definition idsBelow (l : List) : Prop :=
  forall e, e ∈ elements l -> (elemId e < allocated l)%nat.

(** [l'] is [l] with cells added: the cells of [l] are still there, and the
    cells that bear a number of [l] are those of [l]. *)
Definition extends (l l' : List) : Prop :=
  (allocated l <= allocated l')%nat
  /\ (forall e, e ∈ elements l -> e ∈ elements l')
  /\ (forall e, e ∈ elements l' -> (elemId e < allocated l)%nat ->
                 e ∈ elements l).

(** The anchor [pr] suits a commit dated [t]: it is a cell of the list, not
    dated before [t]; with no anchor, no cell of the list is dated before
    [t]. *)
Definition anchorOk (pr : option nat) (l : List) (t : Z) : Prop :=
  match pr with
  | Some a =>
      (exists e, e ∈ elements l /\ elemId e = a)
      /\ forall e, e ∈ elements l -> elemId e = a -> (t <= whenOf e)%Z
  | None => forall e, e ∈ elements l -> (t <= whenOf e)%Z
  end.

Section GraphShape.

Variable GetRawObject : sha1 -> result ReadCloser.
Variable parseCommitData : string -> result Commit.

(** No commit is dated before one of its parents. *)
Definition datesMonotone : Prop :=
  forall id c p c',
    fetchCommit GetRawObject parseCommitData id = Ok c ->
    p ∈ parents c ->
    fetchCommit GetRawObject parseCommitData p = Ok c' ->
    (commitTime c' <= commitTime c)%Z.

(** [rank] goes down from every commit to its parents: the graph has no
    cycle and [rank] bounds the length of the paths from a commit. *)
Definition heightBound (rank : sha1 -> nat) : Prop :=
  forall id c p,
    fetchCommit GetRawObject parseCommitData id = Ok c ->
    p ∈ parents c -> (rank p < rank id)%nat.

(** The ancestry of a commit: the commit, and the commits fetched for the
    parents of a commit of the ancestry. *)
Inductive reachable (start : Commit) : Commit -> Prop :=
| reachable_start : reachable start start
| reachable_parent (c c' : Commit) (p : sha1) :
    reachable start c -> p ∈ parents c ->
    fetchCommit GetRawObject parseCommitData p = Ok c' ->
    reachable start c'.

(** Every parent named in the ancestry of [start] can be fetched. *)
Definition ancestryFetchable (start : Commit) : Prop :=
  forall c p, reachable start c -> p ∈ parents c ->
              exists c', fetchCommit GetRawObject parseCommitData p = Ok c'.

(** What a call of [commitsBefore] on the list [l] leaves behind. *)
Definition cbPost (l : List) (st : cbState) : Prop :=
  cacheCoherent GetRawObject parseCommitData (cbRepo st)
  /\ idsBelow (cbList st)
  /\ sortedList (cbList st)
  /\ extends l (cbList st).

End GraphShape.

(** The pair [(l, err)] that [CommitsBefore] returns, with the values of
    [l] in order, and without the repository. *)
Definition beforeOutcome (r : option (option List * option error * Repository))
  : option (option (list Commit) * option error) :=
  match r with
  | Some (l, err, _) => Some (listValues <$> l, err)
  | None => None
  end.

(** The invariant of a walk under a pager that keeps [count] commits: the
    result holds no more commits than the pager has counted as kept, which
    is no more than [count]. *)
Definition withinCap (count : nat) (st : walkState) : Prop :=
  (length (wsResult st) <= pgKept (wsPager st))%nat
  /\ (pgKept (wsPager st) <= count)%nat.

(** ** Concrete repositories used in the examples *)

Module Examples.

Definition nl : string := String newline EmptyString.

Definition isHex (c : ascii) : bool :=
  let n := nat_of_ascii c in
  ((48 <=? n) && (n <=? 57) || (97 <=? n) && (n <=? 102))%nat.

Fixpoint allHex (s : string) : bool :=
  match s with
  | EmptyString => true
  | String c s' => isHex c && allHex s'
  end.

(** A stand-in for [IsSha1]: forty lowercase hexadecimal digits. *)
Definition hexSha1 (s : string) : bool :=
  (String.length s =? 40)%nat && allHex s.

Definition idA : string := "0123456789abcdef0123456789abcdef01234567".

Definition noPacked : result PackedRefs := Err (ErrOther "open packed-refs").

(** HEAD -> refs/heads/master -> idA, all loose. *)
Definition looseChain : RefStore :=
  mkRefStore
    (<["HEAD" := "ref: refs/heads/master" +:+ nl]>
       (<["refs/heads/master" := idA +:+ nl]> ∅))
    noPacked.

(** refs/heads/dev only in packed-refs. *)
Definition packedOnly : RefStore :=
  mkRefStore ∅
    (Ok (mkPackedRefs
           ["# pack-refs with: peeled fully-peeled";
            idA +:+ " refs/heads/dev"] None)).

(** A branch file holding an abbreviated hash. *)
Definition shortHash : RefStore :=
  mkRefStore (<["refs/heads/master" := "0123456" +:+ nl]> ∅) noPacked.

(** A ref that names itself, and two refs that name each other. *)
Definition selfRef : RefStore :=
  mkRefStore (<["HEAD" := "ref: HEAD" +:+ nl]> ∅) noPacked.

Definition mutualRefs : RefStore :=
  mkRefStore
    (<["refs/heads/a" := "ref: refs/heads/b" +:+ nl]>
       (<["refs/heads/b" := "ref: refs/heads/a" +:+ nl]> ∅))
    noPacked.

(** *** An object store

    Identifiers 1 to 4 are the diamond M(B, A), B(R), A(R), R; 5 is an
    object whose stream breaks, 6 an object that is not a commit; 7 is a
    commit dated before its parent 8; 9 is a merge of the parentless 10, 11
    and 12, which bear one and the same date. *)
Definition who (t : Z) : Signature :=
  mkSignature "A U Thor" "author@example.com" t.

Definition objects (id : sha1) : result ReadCloser :=
  match id with
  | 1 => Ok (Ok "M") | 2 => Ok (Ok "B") | 3 => Ok (Ok "A") | 4 => Ok (Ok "R")
  | 5 => Ok (Err (ErrOther "unexpected EOF"))
  | 6 => Ok (Ok "blob")
  | 7 => Ok (Ok "late") | 8 => Ok (Ok "early")
  | 9 => Ok (Ok "T") | 10 => Ok (Ok "X") | 11 => Ok (Ok "Y") | 12 => Ok (Ok "Z")
  | _ => Err (ErrOther "object not found")
  end%N.

Definition decoded : list (string * Commit) :=
  [("M", mkCommit 0 [2; 3] (who 40) "Merge branch A");
   ("B", mkCommit 0 [4] (who 30) "Work on B");
   ("A", mkCommit 0 [4] (who 20) "Work on A");
   ("R", mkCommit 0 [] (who 10) "Initial commit");
   ("late", mkCommit 0 [8] (who 1) "Clock set back");
   ("early", mkCommit 0 [] (who 2) "Initial commit");
   ("T", mkCommit 0 [10; 11; 12] (who 5) "Octopus merge");
   ("X", mkCommit 0 [] (who 3) "Import X");
   ("Y", mkCommit 0 [] (who 3) "Import Y");
   ("Z", mkCommit 0 [] (who 3) "Import Z")]%N.

Fixpoint assoc (k : string) (l : list (string * Commit)) : option Commit :=
  match l with
  | [] => None
  | (k', c) :: rest => if String.eqb k k' then Some c else assoc k rest
  end.

Definition decode (data : string) : result Commit :=
  match assoc data decoded with
  | Some c => Ok c
  | None => Err (ErrOther "malformed commit")
  end.

(** A handle that has not been used yet. *)
Definition fresh : Repository := mkRepository "/srv/repo.git" None [].

Definition commitM : Commit :=
  (mkCommit 1 [2; 3] (who 40) "Merge branch A")%N.
Definition commitB : Commit :=
  (mkCommit 2 [4] (who 30) "Work on B")%N.
Definition commitA : Commit :=
  (mkCommit 3 [4] (who 20) "Work on A")%N.
Definition commitR : Commit :=
  (mkCommit 4 [] (who 10) "Initial commit")%N.
Definition commitLate : Commit :=
  (mkCommit 7 [8] (who 1) "Clock set back")%N.
Definition commitEarly : Commit :=
  (mkCommit 8 [] (who 2) "Initial commit")%N.
Definition commitT : Commit :=
  (mkCommit 9 [10; 11; 12] (who 5) "Octopus merge")%N.
Definition commitX : Commit := (mkCommit 10 [] (who 3) "Import X")%N.
Definition commitY : Commit := (mkCommit 11 [] (who 3) "Import Y")%N.
Definition commitZ : Commit := (mkCommit 12 [] (who 3) "Import Z")%N.

(** *** A long line of commits

    Object [n] is a commit whose only parent is [n - 1]; object 0 has no
    parent.  The raw bytes of object [n] are [n] letters. *)
Fixpoint letters (n : nat) : string :=
  match n with
  | O => EmptyString
  | S n' => String "x" (letters n')
  end.

Definition lineObjects (id : sha1) : result ReadCloser :=
  Ok (Ok (letters (N.to_nat id))).

Definition lineDecode (data : string) : result Commit :=
  let n := String.length data in
  Ok (mkCommit 0%N
        (match n with O => [] | S n' => [N.of_nat n'] end)
        (who (Z.of_nat n)) "Fix a bug").

Definition name149 : string := "0000000000000000000000000000000000000095".

(** A searcher that accepts every keyword and looks for it in the
    message. *)
Definition searcher (keyword : string) : result (Commit -> bool) :=
  Ok (fun c => Contains (CommitMessage c) keyword).

(** A stand-in for [NewIdFromString]: the number that forty hexadecimal
    digits spell. *)
Definition hexDigit (c : ascii) : N :=
  let n := N_of_ascii c in
  if (n <? 58)%N then (n - 48)%N else (n - 87)%N.

Fixpoint hexValue (acc : N) (s : string) : N :=
  match s with
  | EmptyString => acc
  | String c s' => hexValue (16 * acc + hexDigit c)%N s'
  end.

Definition newId (s : string) : result sha1 :=
  if hexSha1 s then Ok (hexValue 0%N s)
  else Err (ErrOther "Length must be 40 hex digits").

Definition name1 : string := "0000000000000000000000000000000000000001".
Definition name7 : string := "0000000000000000000000000000000000000007".
Definition name9 : string := "0000000000000000000000000000000000000009".

(** The diamond alone: objects 1 to 4 of [objects]. *)
Definition diamondObjects (id : sha1) : result ReadCloser :=
  if (id <? 5)%N then objects id else Err (ErrOther "object not found").

Definition diamondRank (id : sha1) : nat := 5 - N.to_nat id.

(** Path predicates for a path that is in every tree and that no commit
    changed. *)
Definition inEveryTree (path : string) (c : Commit) : bool := true.
Definition neverChanged (path : string) (c : Commit) : bool := false.

End Examples.

(** ** The commit behind a name *)

Section Facade.

Variable IsSha1 : string -> bool.
Variable NewIdFromString : string -> result sha1.
Variable GetRawObject : sha1 -> result ReadCloser.
Variable parseCommitData : string -> result Commit.

(** [GetCommit]: the commit of an identifier given as text. *)
Definition GetCommit (commitId : string) (repo : Repository)
  : result Commit * Repository :=
  match NewIdFromString commitId with
  | Err err => (Err err, repo)
  | Ok id => getCommit GetRawObject parseCommitData id repo
  end.

(** [GetCommitOfBranch]: the ref files are read first, the object store
    after. *)
Definition GetCommitOfBranch (fuel : nat) (fs : RefStore)
    (branchName : string) (repo : Repository)
  : option (result Commit) * Repository :=
  match GetCommitIdOfBranch IsSha1 fuel fs branchName with
  | None => (None, repo)
  | Some (Err err) => (Some (Err err), repo)
  | Some (Ok commitId) =>
      let '(r, repo) := GetCommit commitId repo in (Some r, repo)
  end.

(** [GetCommitOfTag]. *)
Definition GetCommitOfTag (fuel : nat) (fs : RefStore)
    (tagName : string) (repo : Repository)
  : option (result Commit) * Repository :=
  match GetCommitIdOfTag IsSha1 fuel fs tagName with
  | None => (None, repo)
  | Some (Err err) => (Some (Err err), repo)
  | Some (Ok commitId) =>
      let '(r, repo) := GetCommit commitId repo in (Some r, repo)
  end.

(** The handle after [getCommit] has been called for each identifier of
    [ids] in turn. *)
Definition getCommitSeq (ids : list sha1) (repo : Repository) : Repository :=
  foldl (fun r id => (getCommit GetRawObject parseCommitData id r).2) repo ids.

End Facade.

(** Every cached commit bears the identifier it is cached under. *)
Definition cacheKeyed (repo : Repository) : Prop :=
  forall k c, cacheLookup repo k = Some c -> Id c = k.

(** The number of calls of [GetRawObject] for [id] that a record of I/O
    holds. *)
Definition isFetchOf (id : sha1) (ev : ioEvent) : bool :=
  match ev with
  | EvGetRawObject k => Equal k id
  | _ => false
  end.

Definition fetchCount (id : sha1) (trace : list ioEvent) : nat :=
  length (List.filter (isFetchOf id) trace).

(** Each commit of the list has the next one as its first parent. *)
Fixpoint firstParentLinked (l : list Commit) : Prop :=
  match l with
  | [] => True
  | c :: rest =>
      match rest with
      | [] => True
      | c' :: _ => parents c !! 0%nat = Some (Id c')
      end /\ firstParentLinked rest
  end.

(** ** More concrete repositories *)

Module MoreExamples.

Definition idB : string := "89abcdef0123456789abcdef0123456789abcdef".

(** A branch file in which a line of a symbolic ref follows an identifier
    line; the branch it names holds another identifier. *)
Definition twoLines : RefStore :=
  mkRefStore
    (<["refs/heads/odd" :=
         Examples.idA +:+ Examples.nl +:+ "ref: refs/heads/master" +:+ Examples.nl]>
       (<["refs/heads/master" := idB +:+ Examples.nl]> ∅))
    Examples.noPacked.

(** The loose files of [Examples.looseChain] beside the packed-refs of
    [Examples.packedOnly]. *)
Definition looseAndPacked : RefStore :=
  mkRefStore (looseFiles Examples.looseChain) (packedRefs Examples.packedOnly).

(** A branch file that holds the name of commit B of the diamond. *)
Definition name2 : string := "0000000000000000000000000000000000000002".

Definition branchB : RefStore :=
  mkRefStore (<["refs/heads/topic" := name2 +:+ Examples.nl]> ∅)
    Examples.noPacked.

(** The state after [getCommitsBefore] of commit 7, the one dated before
    its parent, on a new handle; and the state after a call of
    [commitsBefore] for the merge commit of the diamond, without an anchor,
    on the list and the handle of that state. *)
Definition noState : cbState := mkCbState None New Examples.fresh.

Definition lateState : cbState :=
  default noState
    (getCommitsBefore Examples.objects Examples.decode 5 7%N Examples.fresh).

Definition thenDiamond : cbState :=
  default noState
    (commitsBefore Examples.objects Examples.decode 5 (cbList lateState) None
       1%N (cbRepo lateState)).

(** The state after [getCommitsBefore] of the merge commit of the diamond. *)
Definition diamondState : cbState :=
  default noState
    (getCommitsBefore Examples.objects Examples.decode 5 1%N Examples.fresh).

(** The same on the store that holds the diamond alone. *)
Definition diamondAloneState : cbState :=
  default noState
    (getCommitsBefore Examples.diamondObjects Examples.decode 5 1%N
       Examples.fresh).

(** A packed-refs in which the line of branch dev2 comes before the line
    of branch dev, and no loose file; and the same with a loose file for
    dev that holds the bytes of the line of dev. *)
Definition packedDev2Dev : RefStore :=
  mkRefStore ∅
    (Ok (mkPackedRefs
           [idB +:+ " refs/heads/dev2"; Examples.idA +:+ " refs/heads/dev"]
           None)).

Definition looseDev : RefStore :=
  mkRefStore (<["refs/heads/dev" := Examples.idA +:+ " refs/heads/dev"]> ∅)
    (packedRefs packedDev2Dev).

(** A repository just made: HEAD names a branch that has no file yet, and
    there is no packed-refs. *)
Definition unborn : RefStore :=
  mkRefStore (<["HEAD" := "ref: refs/heads/master" +:+ Examples.nl]> ∅)
    Examples.noPacked.

End MoreExamples.

(** ** The merge-list builder and the ancestry *)

(** [l'] is [l] with cells put in behind its first cell: the cells of [l]
    are in [l'] in their order, and a first cell stays first. *)
Definition grows (l l' : List) : Prop :=
  elements l `sublist_of` elements l'
  /\ (elements l <> [] -> head (elements l') = head (elements l)).

Section Ancestry.

Variable GetRawObject : sha1 -> result ReadCloser.
Variable parseCommitData : string -> result Commit.

(** Every commit of the list is the one the store holds for its
    identifier. *)
Definition valuesFetched (l : List) : Prop :=
  forall e, e ∈ elements l ->
            fetchCommit GetRawObject parseCommitData (Id (Value e)) = Ok (Value e).

(** The parents of every commit of the list are in the list, but for the
    commits whose identifier is in [open]. *)
Definition closedExcept (open : sha1 -> Prop) (l : List) : Prop :=
  forall e, e ∈ elements l -> ~ open (Id (Value e)) ->
            forall p, p ∈ parents (Value e) -> p ∈ (Id <$> listValues l).

End Ancestry.

(** ** Histories dated in order, every commit at a date of its own *)

(** The timestamps of a list go down from one element to the next. *)
Fixpoint decreasing (ts : list Z) : Prop :=
  match ts with
  | [] => True
  | t :: rest =>
      match rest with
      | [] => True
      | u :: _ => (u < t)%Z
      end /\ decreasing rest
  end.

Definition decreasingList (l : List) : Prop :=
  decreasing (whenOf <$> elements l).

(** The anchor [pr] suits a commit dated [t] in a history dated in order:
    it is a cell of the list dated after [t]; with no anchor, every cell of
    the list is dated after [t]. *)
Definition anchorStrict (pr : option nat) (l : List) (t : Z) : Prop :=
  match pr with
  | Some a =>
      (exists e, e ∈ elements l /\ elemId e = a)
      /\ forall e, e ∈ elements l -> elemId e = a -> (t < whenOf e)%Z
  | None => forall e, e ∈ elements l -> (t < whenOf e)%Z
  end.

Section DatedHistory.

Variable GetRawObject : sha1 -> result ReadCloser.
Variable parseCommitData : string -> result Commit.

(** Every commit is dated after its parents. *)
Definition datesStrict : Prop :=
  forall id c p c',
    fetchCommit GetRawObject parseCommitData id = Ok c ->
    p ∈ parents c ->
    fetchCommit GetRawObject parseCommitData p = Ok c' ->
    (commitTime c' < commitTime c)%Z.

(** No two commits bear the same date. *)
Definition datesDistinct : Prop :=
  forall k k' c c',
    fetchCommit GetRawObject parseCommitData k = Ok c ->
    fetchCommit GetRawObject parseCommitData k' = Ok c' ->
    commitTime c = commitTime c' -> k = k'.

(** What a call of [commitsBefore] on the list [l] leaves behind in such a
    history. *)
Definition cbPostStrict (l : List) (st : cbState) : Prop :=
  cacheCoherent GetRawObject parseCommitData (cbRepo st)
  /\ idsBelow (cbList st)
  /\ decreasingList (cbList st)
  /\ valuesFetched GetRawObject parseCommitData (cbList st)
  /\ extends l (cbList st).

End DatedHistory.

(** Every commit of the list is in the cache of the handle, under its
    identifier. *)
Definition cachedAll (l : List) (repo : Repository) : Prop :=
  forall e, e ∈ elements l ->
            cacheLookup repo (Id (Value e)) = Some (Value e).

(** The cache of [repo'] holds the entries of the cache of [repo]. *)
Definition cacheGrows (repo repo' : Repository) : Prop :=
  forall k c, cacheLookup repo k = Some c -> cacheLookup repo' k = Some c.

(** * Properties *)

(** ** Reference resolution *)

Lemma string_app_cons (c : ascii) (s t : string) :
  String c s +:+ t = String c (s +:+ t).
Proof. reflexivity. Qed.

Lemma untilNewline_line (t rest : string) :
  noNewline t = true ->
  untilNewline (t +:+ String newline rest) = Some t.
Proof.
  induction t as [|c t IH]; simpl; intros H.
  - reflexivity.
  - apply andb_true_iff in H as [Hc Ht].
    apply negb_true_iff in Hc. rewrite Hc, (IH Ht). reflexivity.
Qed.

Lemma untilNewline_noNewline (s : string) :
  noNewline s = true -> untilNewline s = None.
Proof.
  induction s as [|c s IH]; simpl; intros H; [reflexivity|].
  apply andb_true_iff in H as [Hc Hs].
  apply negb_true_iff in Hc. rewrite Hc, (IH Hs). reflexivity.
Qed.

Lemma stripPrefix_noNewline (pre s t : string) :
  stripPrefix pre s = Some t -> noNewline s = true -> noNewline t = true.
Proof.
  revert s. induction pre as [|a pre IH]; intros s; simpl.
  - now intros [= ->].
  - destruct s as [|b s]; [discriminate|].
    destruct (Ascii.eqb a b); [|discriminate].
    intros Hs H. simpl in H. apply andb_true_iff in H as [_ H]. eauto.
Qed.

(** Content without a newline is never taken for a symbolic ref. *)
Lemma refRexpSubmatch_noNewline (s : string) :
  noNewline s = true -> refRexpSubmatch s = None.
Proof.
  induction s as [|c s IH]; intros H; [reflexivity|].
  cbn [refRexpSubmatch].
  destruct (stripPrefix "ref: " (String c s)) as [t|] eqn:Ht; cbn [mbind option_bind].
  - rewrite (untilNewline_noNewline t (stripPrefix_noNewline _ _ _ Ht H)).
    simpl in H. apply andb_true_iff in H as [_ Hs]. exact (IH Hs).
  - simpl in H. apply andb_true_iff in H as [_ Hs]. exact (IH Hs).
Qed.

(** Content of the exact form "ref: <target>\n" names [target]. *)
Lemma refRexpSubmatch_symbolic (target : string) :
  noNewline target = true ->
  refRexpSubmatch ("ref: " +:+ target +:+ String newline EmptyString)
  = Some target.
Proof.
  intros H. rewrite !string_app_cons.
  change (EmptyString +:+ ?x) with x.
  cbn [refRexpSubmatch stripPrefix Ascii.eqb Bool.eqb mbind option_bind].
  now rewrite (untilNewline_line _ _ H).
Qed.

Section ResolverFacts.

Variable IsSha1 : string -> bool.

Lemma getCommitIdOfRef_step (fuel : nat) (fs : RefStore) (p : string) :
  getCommitIdOfRef IsSha1 (S fuel) fs p =
  match readRef fs p with
  | Err e => Some (Err e)
  | Ok f =>
      match refRexpSubmatch f with
      | None => Some (parseSha1 IsSha1 f)
      | Some target => getCommitIdOfRef IsSha1 fuel fs target
      end
  end.
Proof. reflexivity. Qed.

(** A pass that jumps hands the question to the target. *)
Lemma getCommitIdOfRef_hop (fuel : nat) (fs : RefStore) (p q : string) :
  hop fs p = Some q -> getCommitIdOfRef IsSha1 (S fuel) fs p = getCommitIdOfRef IsSha1 fuel fs q.
Proof.
  unfold hop. rewrite getCommitIdOfRef_step.
  destruct (readRef fs p); [|discriminate]. now intros ->.
Qed.

Lemma getCommitIdOfRef_no_hop (fuel : nat) (fs : RefStore) (p : string) :
  hop fs p = None -> is_Some (getCommitIdOfRef IsSha1 (S fuel) fs p).
Proof.
  unfold hop. rewrite getCommitIdOfRef_step.
  destruct (readRef fs p); [|eauto]. intros ->. eauto.
Qed.

(** The loop is still running after [fuel] passes exactly when [fuel]
    jumps can be made. *)
Lemma getCommitIdOfRef_None (fuel : nat) (fs : RefStore) (p : string) :
  getCommitIdOfRef IsSha1 fuel fs p = None <-> is_Some (hops fs fuel p).
Proof.
  revert p. induction fuel as [|fuel IH]; intros p.
  - simpl. split; eauto.
  - cbn [hops]. destruct (hop fs p) as [q|] eqn:Hq.
    + rewrite (getCommitIdOfRef_hop _ _ _ _ Hq). apply IH.
    + destruct (getCommitIdOfRef_no_hop fuel fs p Hq) as [r Hr].
      rewrite Hr. split; [discriminate | intros [? ?]; discriminate].
Qed.

Lemma hops_add (fs : RefStore) (n m : nat) (p : string) :
  hops fs (n + m) p = hops fs n p ≫= hops fs m.
Proof.
  revert p. induction n as [|n IH]; intros p; [reflexivity|].
  cbn [Nat.add hops]. destruct (hop fs p); [apply IH | reflexivity].
Qed.

Lemma hops_cycle (fs : RefStore) (k : nat) (p : string) :
  hops fs k p = Some p -> forall j, hops fs (j * k) p = Some p.
Proof.
  intros Hk. induction j as [|j IH]; [reflexivity|].
  cbn [Nat.mul]. rewrite hops_add, Hk. exact IH.
Qed.

Lemma hops_fewer (fs : RefStore) (n m : nat) (p : string) :
  (n <= m)%nat -> is_Some (hops fs m p) -> is_Some (hops fs n p).
Proof.
  intros Hle. replace m with (n + (m - n))%nat by lia.
  rewrite hops_add. destruct (hops fs n p); [eauto|].
  intros [? ?]; discriminate.
Qed.

(** A ref path that comes back to itself is resolved by no amount of
    passes. *)
Lemma getCommitIdOfRef_cycle (fs : RefStore) (k : nat) (p : string) :
  hops fs (S k) p = Some p -> forall fuel, getCommitIdOfRef IsSha1 fuel fs p = None.
Proof.
  intros Hk fuel. apply getCommitIdOfRef_None.
  apply (hops_fewer fs fuel (fuel * S k)); [nia|].
  rewrite (hops_cycle fs _ p Hk). eauto.
Qed.

Lemma hops_stuck (fs : RefStore) (m : nat) (p : string) :
  hops fs m p = None ->
  exists n q, (n < m)%nat /\ hops fs n p = Some q /\ hop fs q = None.
Proof.
  revert p. induction m as [|m IH]; intros p; [discriminate|].
  cbn [hops]. destruct (hop fs p) as [t|] eqn:Ht.
  - intros H. destruct (IH _ H) as (n & q & Hn & Hq & Hstop).
    exists (S n), q. cbn [hops]. rewrite Ht. repeat split; [lia|done..].
  - intros _. exists 0%nat, p. repeat split; [lia|done].
Qed.

(** Resolution reads the store only through [readRef]. *)
Lemma getCommitIdOfRef_ext (fs fs' : RefStore) :
  (forall q, readRef fs q = readRef fs' q) ->
  forall fuel p, getCommitIdOfRef IsSha1 fuel fs p = getCommitIdOfRef IsSha1 fuel fs' p.
Proof.
  intros Hrd. induction fuel as [|fuel IH]; intros p; [reflexivity|].
  rewrite !getCommitIdOfRef_step, <- Hrd.
  destruct (readRef fs p) as [f|]; [|reflexivity].
  destruct (refRexpSubmatch f); [apply IH | reflexivity].
Qed.

Lemma scanPackedLines_first (before after : list string) (ln p : string) :
  Forall (fun t => Contains t p = false) before ->
  Contains ln p = true ->
  scanPackedLines (before ++ ln :: after) p = Some ln.
Proof.
  induction 1 as [|t before Ht _ IH]; intros Hln; simpl.
  - now rewrite Hln.
  - rewrite Ht. now apply IH.
Qed.

Lemma parseSha1_valid (id rest : string) :
  String.length id = 40%nat -> IsSha1 id = true ->
  parseSha1 IsSha1 (id +:+ rest) = Ok id.
Proof.
  intros Hlen Hid. unfold parseSha1.
  assert (Hsub : String.substring 0 40 (id +:+ rest) = id).
  { rewrite <- Hlen. clear. induction id as [|c id IH]; simpl.
    - now destruct rest.
    - now rewrite IH. }
  assert (Hge : (String.length (id +:+ rest) <? 40)%nat = false).
  { apply Nat.ltb_ge. rewrite <- Hlen. clear.
    induction id as [|c id IH]; simpl; lia. }
  now rewrite Hge, Hsub, Hid.
Qed.

(** C3, amended. A loose ref whose content starts with a valid
    40-character identifier, and in whose content the symbolic-ref pattern
    matches nowhere, resolves to exactly that identifier; a symbolic chain
    A -> B -> id, the content of A being exactly "ref: B" and a newline
    and that of B as before, resolves to id; and a ref without a loose
    file resolves as a loose ref would that holds the bytes of the first
    line of packed-refs in which the ref path stands as a substring: to
    the identifier at the head of that line when it is valid. *)
Theorem ref_resolution (fs : RefStore) (fuel : nat) :
  (forall p id rest,
      looseFiles fs !! p = Some (id +:+ rest) ->
      String.length id = 40%nat -> IsSha1 id = true ->
      refRexpSubmatch (id +:+ rest) = None ->
      getCommitIdOfRef IsSha1 (S fuel) fs p = Some (Ok id))
  /\ (forall a b id rest,
        looseFiles fs !! a = Some ("ref: " +:+ b +:+ String newline EmptyString) ->
        noNewline b = true ->
        looseFiles fs !! b = Some (id +:+ rest) ->
        String.length id = 40%nat -> IsSha1 id = true ->
        refRexpSubmatch (id +:+ rest) = None ->
        getCommitIdOfRef IsSha1 (S (S fuel)) fs a = Some (Ok id))
  /\ (forall p before ln after scanErr,
        looseFiles fs !! p = None ->
        packedRefs fs = Ok (mkPackedRefs (before ++ ln :: after) scanErr) ->
        Forall (fun t => Contains t p = false) before ->
        Contains ln p = true ->
        getCommitIdOfRef IsSha1 fuel fs p
        = getCommitIdOfRef IsSha1 fuel
            (mkRefStore (<[p := ln]> (looseFiles fs)) (packedRefs fs)) p
        /\ forall id rest,
            ln = id +:+ rest -> noNewline ln = true ->
            String.length id = 40%nat -> IsSha1 id = true ->
            getCommitIdOfRef IsSha1 (S fuel) fs p = Some (Ok id)).
Proof.
  assert (Hdirect : forall n p id rest,
             readRef fs p = Ok (id +:+ rest) ->
             String.length id = 40%nat -> IsSha1 id = true ->
             refRexpSubmatch (id +:+ rest) = None ->
             getCommitIdOfRef IsSha1 (S n) fs p = Some (Ok id)).
  { intros n p id rest Hrd Hlen Hid Hno.
    rewrite getCommitIdOfRef_step, Hrd, Hno.
    now rewrite parseSha1_valid. }
  split; [|split].
  - intros p id rest Hp. apply (Hdirect fuel p id rest).
    unfold readRef. now rewrite Hp.
  - intros a b id rest Ha Hb Hf Hlen Hid Hno.
    rewrite getCommitIdOfRef_step. unfold readRef at 1. rewrite Ha.
    rewrite (refRexpSubmatch_symbolic b Hb).
    apply (Hdirect fuel b id rest); [|done..].
    unfold readRef. now rewrite Hf.
  - intros p before ln after scanErr Hp Hpk Hbefore Hln.
    assert (Hrd : readRef fs p = Ok ln).
    { unfold readRef, getCommitIdOfPackedRef. rewrite Hp, Hpk. simpl.
      now rewrite (scanPackedLines_first _ _ _ _ Hbefore Hln). }
    split.
    + apply getCommitIdOfRef_ext. intros q.
      destruct (decide (q = p)) as [->|Hne].
      * rewrite Hrd. unfold readRef. simpl. now rewrite lookup_insert_eq.
      * unfold readRef, getCommitIdOfPackedRef. simpl.
        now rewrite lookup_insert_ne.
    + intros id rest -> Hnl Hlen Hid.
      apply (Hdirect fuel p id rest Hrd Hlen Hid).
      now apply refRexpSubmatch_noNewline.
Qed.

(** C7. Content that is not a symbolic ref and is shorter than 40
    characters, or whose first 40 characters [IsSha1] rejects, makes the
    resolution fail with one of the two malformed-identifier errors, never
    with a result and never with the not-found error. *)
Theorem malformed_ref_fails (fs : RefStore) (fuel : nat) (p f : string) :
  readRef fs p = Ok f ->
  refRexpSubmatch f = None ->
  (String.length f < 40)%nat \/ IsSha1 (String.substring 0 40 f) = false ->
  exists e, getCommitIdOfRef IsSha1 (S fuel) fs p = Some (Err e)
            /\ (e = ErrSha1TooShort \/ e = ErrWrongSha1 (String.substring 0 40 f))
            /\ e <> ErrRefNotFound.
Proof.
  intros Hrd Hno Hbad. rewrite getCommitIdOfRef_step, Hrd, Hno.
  unfold parseSha1.
  destruct (String.length f <? 40)%nat eqn:Hlen.
  - exists ErrSha1TooShort. repeat split; [now left | discriminate].
  - apply Nat.ltb_ge in Hlen. destruct Hbad as [Hlt | Hsha]; [lia|].
    rewrite Hsha. eexists. repeat split; [now right | discriminate].
Qed.

(** C9. Nothing bounds the chain of symbolic refs: resolution returns
    exactly when, after finitely many jumps, a ref path is reached from
    which no jump is made (its content is not symbolic, or it cannot be
    read); a ref path that comes back to itself, in one jump or in
    several, is never resolved, and such stores exist. *)
Theorem symbolic_ref_no_cycle_guard :
  (forall fs p,
      (exists fuel, is_Some (getCommitIdOfRef IsSha1 fuel fs p)) <->
      (exists n q, hops fs n p = Some q /\ hop fs q = None))
  /\ (forall fs k p,
        hops fs (S k) p = Some p ->
        forall fuel, getCommitIdOfRef IsSha1 fuel fs p = None)
  /\ (forall fuel, getCommitIdOfRef IsSha1 fuel Examples.selfRef "HEAD" = None)
  /\ (forall fuel,
        getCommitIdOfRef IsSha1 fuel Examples.mutualRefs "refs/heads/a" = None).
Proof.
  split; [|split; [|split]].
  - intros fs p. split.
    + intros [fuel [r Hr]].
      destruct (hops fs fuel p) as [q|] eqn:Hq.
      * assert (H : getCommitIdOfRef IsSha1 fuel fs p = None)
          by (apply getCommitIdOfRef_None; eauto).
        congruence.
      * destruct (hops_stuck _ _ _ Hq) as (n & q & _ & Hn & Hstop). eauto.
    + intros (n & q & Hn & Hstop). exists (S n).
      destruct (getCommitIdOfRef IsSha1 (S n) fs p) eqn:Hr; [eauto|].
      apply getCommitIdOfRef_None in Hr as [t Ht].
      replace (S n) with (n + 1)%nat in Ht by lia.
      rewrite hops_add, Hn in Ht. simpl in Ht. now rewrite Hstop in Ht.
  - apply getCommitIdOfRef_cycle.
  - apply (getCommitIdOfRef_cycle _ 0). reflexivity.
  - apply (getCommitIdOfRef_cycle _ 1). reflexivity.
Qed.

End ResolverFacts.

(** C3 on two concrete stores: a branch behind HEAD, and a branch that is
    only in packed-refs. *)
Lemma ref_resolution_witness :
  getCommitIdOfRef Examples.hexSha1 1 Examples.looseChain "refs/heads/master"
  = Some (Ok Examples.idA)
  /\ getCommitIdOfRef Examples.hexSha1 2 Examples.looseChain "HEAD"
     = Some (Ok Examples.idA)
  /\ getCommitIdOfRef Examples.hexSha1 1 Examples.packedOnly "refs/heads/dev"
     = Some (Ok Examples.idA).
Proof.
  split; [|split].
  - apply (proj1 (ref_resolution Examples.hexSha1 Examples.looseChain 0)
             "refs/heads/master" Examples.idA Examples.nl); reflexivity.
  - apply (proj1 (proj2 (ref_resolution Examples.hexSha1 Examples.looseChain 0))
             "HEAD" "refs/heads/master" Examples.idA Examples.nl); reflexivity.
  - destruct (proj2 (proj2 (ref_resolution Examples.hexSha1 Examples.packedOnly 0))
                "refs/heads/dev" ["# pack-refs with: peeled fully-peeled"]
                (Examples.idA +:+ " refs/heads/dev") [] None) as [_ H].
    + reflexivity.
    + reflexivity.
    + constructor; [reflexivity | constructor].
    + reflexivity.
    + apply (H Examples.idA " refs/heads/dev"); reflexivity.
Defined.

(** C3 as stated fails in two ways.  A loose file that holds a valid
    identifier on its first line and a line of a symbolic ref after it
    resolves to what the named ref holds, not to the identifier.  And a ref
    that is only in packed-refs, behind the line of another ref whose name
    its path begins, resolves to the identifier of that other ref, where a
    loose file with the bytes of its own line gives its own. *)
Lemma ref_resolution_as_stated_fails :
  (looseFiles MoreExamples.twoLines !! "refs/heads/odd"
   = Some (Examples.idA +:+ Examples.nl +:+ "ref: refs/heads/master" +:+ Examples.nl)
   /\ Examples.hexSha1 Examples.idA = true
   /\ getCommitIdOfRef Examples.hexSha1 2 MoreExamples.twoLines "refs/heads/odd"
      = Some (Ok MoreExamples.idB)
   /\ MoreExamples.idB <> Examples.idA)
  /\ (looseFiles MoreExamples.packedDev2Dev !! "refs/heads/dev" = None
      /\ getCommitIdOfRef Examples.hexSha1 1 MoreExamples.packedDev2Dev
           "refs/heads/dev" = Some (Ok MoreExamples.idB)
      /\ getCommitIdOfRef Examples.hexSha1 1 MoreExamples.looseDev
           "refs/heads/dev" = Some (Ok Examples.idA)).
Proof.
  split; [split; [|split; [|split]]|split; [|split]];
    try reflexivity. discriminate.
Qed.

(** C7 on a branch file that holds an abbreviated hash. *)
Lemma malformed_ref_fails_witness :
  exists e,
    getCommitIdOfRef Examples.hexSha1 1 Examples.shortHash "refs/heads/master"
    = Some (Err e)
    /\ (e = ErrSha1TooShort
        \/ e = ErrWrongSha1 (String.substring 0 40 ("0123456" +:+ Examples.nl)))
    /\ e <> ErrRefNotFound.
Proof.
  apply (malformed_ref_fails Examples.hexSha1 Examples.shortHash 0
           "refs/heads/master" ("0123456" +:+ Examples.nl)).
  - reflexivity.
  - reflexivity.
  - left. vm_compute. lia.
Defined.

(** C9 on the store whose HEAD names itself: a thousand passes are no
    more enough than any other number. *)
Lemma symbolic_ref_no_cycle_guard_witness :
  hops Examples.selfRef 1 "HEAD" = Some "HEAD"
  /\ getCommitIdOfRef Examples.hexSha1 1000 Examples.selfRef "HEAD" = None.
Proof.
  split; [reflexivity|].
  apply (proj1 (proj2 (symbolic_ref_no_cycle_guard Examples.hexSha1))
           Examples.selfRef 0%nat "HEAD").
  reflexivity.
Defined.

(** ** The commit store *)

Section StoreFacts.

Variable GetRawObject : sha1 -> result ReadCloser.
Variable parseCommitData : string -> result Commit.

Local Notation "'getCommit''" := (getCommit GetRawObject parseCommitData).
Local Notation "'fetchCommit''" := (fetchCommit GetRawObject parseCommitData).

Lemma cacheLookup_setCache (m : gmap sha1 Commit) (repo : Repository) (k : sha1) :
  cacheLookup (setCache m repo) k = m !! k.
Proof. reflexivity. Qed.

(** A miss, whatever the cache map [m] it starts from. *)
Lemma getCommitMiss_spec (id : sha1) (m : gmap sha1 Commit) (repo : Repository) :
  let '(r, repo') := getCommitMiss GetRawObject parseCommitData id m repo in
  r = fetchCommit' id
  /\ ioTrace repo' = missEvents GetRawObject id ++ ioTrace repo
  /\ Path repo' = Path repo
  /\ match r with
     | Ok c => commitCache repo' = Some (<[id := c]> m)
     | Err _ => commitCache repo' = commitCache repo
     end.
Proof.
  unfold getCommitMiss, fetchCommit, missEvents.
  destruct (GetRawObject id) as [[data|e]|e]; simpl; [|done..].
  destruct (parseCommitData data) as [c|e]; simpl; done.
Qed.

Lemma getCommit_hit (id : sha1) (repo : Repository) (c : Commit) :
  cacheLookup repo id = Some c -> getCommit' id repo = (Ok c, repo).
Proof.
  unfold cacheLookup, getCommit.
  destruct (commitCache repo) as [m|]; [|discriminate]. now intros ->.
Qed.

(** What a call that does not find [id] in the cache does. *)
Lemma getCommit_miss (id : sha1) (repo : Repository) :
  cacheLookup repo id = None ->
  let '(r, repo') := getCommit' id repo in
  r = fetchCommit' id
  /\ ioTrace repo' = missEvents GetRawObject id ++ ioTrace repo
  /\ match r with
     | Ok c => forall k, cacheLookup repo' k
                         = if decide (id = k) then Some c else cacheLookup repo k
     | Err _ => forall k, cacheLookup repo' k = cacheLookup repo k
     end.
Proof.
  unfold cacheLookup at 1, getCommit.
  destruct (commitCache repo) as [m|] eqn:Hm.
  - intros ->.
    pose proof (getCommitMiss_spec id m repo) as H.
    destruct (getCommitMiss _ _ id m repo) as [r repo'].
    destruct H as (Hr & Hio & _ & Hc). repeat split; [done..|].
    destruct r as [c|e]; intros k; unfold cacheLookup; rewrite Hc.
    + rewrite lookup_insert, Hm. reflexivity.
    + reflexivity.
  - intros _.
    pose proof (getCommitMiss_spec id ∅ (setCache ∅ repo)) as H.
    destruct (getCommitMiss _ _ id ∅ _) as [r repo'].
    destruct H as (Hr & Hio & _ & Hc). repeat split; [done..|].
    destruct r as [c|e]; intros k; unfold cacheLookup; rewrite Hc.
    + rewrite lookup_insert, Hm, lookup_empty. reflexivity.
    + simpl. rewrite Hm. apply lookup_empty.
Qed.

(** With a coherent cache the store is a memo of [fetchCommit]. *)
Lemma getCommit_coherent (id : sha1) (repo : Repository) :
  cacheCoherent GetRawObject parseCommitData repo ->
  (getCommit' id repo).1 = fetchCommit' id
  /\ cacheCoherent GetRawObject parseCommitData (getCommit' id repo).2.
Proof.
  intros Hco. destruct (cacheLookup repo id) as [c|] eqn:Hc.
  - rewrite (getCommit_hit _ _ _ Hc). simpl. split; [|done].
    symmetry. now apply Hco.
  - pose proof (getCommit_miss id repo Hc) as H.
    destruct (getCommit' id repo) as [r repo']. simpl.
    destruct H as (-> & _ & Hlk). split; [done|].
    intros k c'. destruct (fetchCommit' id) as [c|e] eqn:Hf; rewrite Hlk.
    + case_decide as Hk; [|apply Hco]. subst k. congruence.
    + apply Hco.
Qed.

Lemma cacheCoherent_fresh (path : string) (trace : list ioEvent) :
  cacheCoherent GetRawObject parseCommitData (mkRepository path None trace).
Proof. intros id c. discriminate. Qed.

(** C4. When [getCommit id] returns a commit, calling it again on the
    handle as the first call left it returns the same commit and leaves
    the handle, record of I/O included, as it was: the second call is a
    cache hit without I/O.  If [id] was not cached before the first call,
    the two calls together made exactly one fetch, one read and one
    decode of [id]; if it was, none. *)
Theorem getCommit_memoized (id : sha1) (repo repo1 : Repository) (c : Commit) :
  getCommit' id repo = (Ok c, repo1) ->
  getCommit' id repo1 = (Ok c, repo1)
  /\ (cacheLookup repo id = None ->
      ioTrace (getCommit' id repo1).2
      = [EvParseCommitData id; EvReadAll id; EvGetRawObject id] ++ ioTrace repo)
  /\ (cacheLookup repo id <> None ->
      ioTrace (getCommit' id repo1).2 = ioTrace repo).
Proof.
  intros Hget.
  assert (Hcached : cacheLookup repo1 id = Some c
                    /\ (cacheLookup repo id = None ->
                        ioTrace repo1 = [EvParseCommitData id; EvReadAll id;
                                         EvGetRawObject id] ++ ioTrace repo)
                    /\ (cacheLookup repo id <> None -> repo1 = repo)).
  { destruct (cacheLookup repo id) as [c0|] eqn:Hc.
    - rewrite (getCommit_hit _ _ _ Hc) in Hget.
      injection Hget as -> ->. repeat split; [done | discriminate].
    - pose proof (getCommit_miss id repo Hc) as H. rewrite Hget in H.
      destruct H as (Hf & Hio & Hlk). split; [|split; [|done]].
      + rewrite Hlk. now case_decide.
      + intros _. rewrite Hio. unfold missEvents.
        unfold fetchCommit in Hf.
        destruct (GetRawObject id) as [[data|e]|e]; [done | discriminate..]. }
  destruct Hcached as (Hhit & Hmiss & Hsame).
  rewrite (getCommit_hit _ _ _ Hhit). simpl. split; [done|split].
  - exact Hmiss.
  - intros H. now rewrite (Hsame H).
Qed.

(** C10. When [getCommit id] fails, the cache holds the same entries as
    before the call, none for [id] among them, and the next call for [id]
    fetches again. *)
Theorem getCommit_error_not_cached (id : sha1) (repo repo1 : Repository) (e : error) :
  getCommit' id repo = (Err e, repo1) ->
  (forall k, cacheLookup repo1 k = cacheLookup repo k)
  /\ cacheLookup repo1 id = None
  /\ (getCommit' id repo1).1 = Err e
  /\ exists evs, ioTrace (getCommit' id repo1).2
                 = evs ++ [EvGetRawObject id] ++ ioTrace repo1.
Proof.
  intros Hget.
  assert (Hc : cacheLookup repo id = None).
  { destruct (cacheLookup repo id) as [c0|] eqn:Hc; [|done].
    rewrite (getCommit_hit _ _ _ Hc) in Hget. discriminate. }
  pose proof (getCommit_miss id repo Hc) as H. rewrite Hget in H.
  destruct H as (Hf & _ & Hlk).
  assert (Hc1 : cacheLookup repo1 id = None) by now rewrite Hlk.
  pose proof (getCommit_miss id repo1 Hc1) as H.
  destruct (getCommit' id repo1) as [r repo2]. simpl.
  destruct H as (-> & Hio & _). repeat split; [done..|].
  rewrite Hio. unfold missEvents.
  destruct (GetRawObject id) as [[data|e']|e'].
  - now exists [EvParseCommitData id; EvReadAll id].
  - now exists [EvReadAll id].
  - now exists [].
Qed.

End StoreFacts.

(** C4 on the diamond store: the merge commit, asked for twice on a new
    handle. *)
Lemma getCommit_memoized_witness :
  let repo1 := (getCommit Examples.objects Examples.decode 1%N Examples.fresh).2 in
  getCommit Examples.objects Examples.decode 1%N repo1 = (Ok Examples.commitM, repo1)
  /\ ioTrace (getCommit Examples.objects Examples.decode 1%N repo1).2
     = [EvParseCommitData 1%N; EvReadAll 1%N; EvGetRawObject 1%N].
Proof.
  destruct (getCommit_memoized Examples.objects Examples.decode 1%N Examples.fresh
              (getCommit Examples.objects Examples.decode 1%N Examples.fresh).2
              Examples.commitM) as (H1 & H2 & _).
  - reflexivity.
  - split; [exact H1 | exact (H2 eq_refl)].
Defined.

(** C10 on the diamond store: object 6 is not a commit. *)
Lemma getCommit_error_not_cached_witness :
  let repo1 := (getCommit Examples.objects Examples.decode 6%N Examples.fresh).2 in
  cacheLookup repo1 6%N = None
  /\ (getCommit Examples.objects Examples.decode 6%N repo1).1
     = Err (ErrOther "malformed commit").
Proof.
  destruct (getCommit_error_not_cached Examples.objects Examples.decode 6%N
              Examples.fresh
              (getCommit Examples.objects Examples.decode 6%N Examples.fresh).2
              (ErrOther "malformed commit")) as (_ & H2 & H3 & _).
  - reflexivity.
  - split; [exact H2 | exact H3].
Defined.

(** ** CommitsBetween *)

Section BetweenFacts.

Variable GetRawObject : sha1 -> result ReadCloser.
Variable parseCommitData : string -> result Commit.

Local Notation "'fetchCommit''" := (fetchCommit GetRawObject parseCommitData).
Local Notation "'coherent'" := (cacheCoherent GetRawObject parseCommitData).

(** [Parent] on a coherent cache. *)
Lemma Parent_coherent (c : Commit) (n : nat) (repo : Repository) :
  coherent repo ->
  (Parent GetRawObject parseCommitData c n repo).1
  = match parents c !! n with
    | Some id => fetchCommit' id
    | None => Err (ErrOther "Parent number does not exist")
    end
  /\ coherent (Parent GetRawObject parseCommitData c n repo).2.
Proof.
  intros Hco. unfold Parent, ParentId.
  destruct (parents c !! n) as [id|]; [|done].
  now apply getCommit_coherent.
Qed.

(** The loop appends the chain of the description to what it was given. *)
Lemma commitsBetweenLoop_spec (fuel : nat) (before cur : Commit)
    (l : list Commit) (repo : Repository) :
  coherent repo ->
  (commitsBetweenLoop GetRawObject parseCommitData fuel before cur l repo).1
  = match specCommitsBetween GetRawObject parseCommitData fuel before cur with
    | Some (Ok chain) => Some (Ok (l ++ chain))
    | r => r
    end.
Proof.
  revert cur l repo. induction fuel as [|fuel IH]; intros cur l repo Hco.
  - reflexivity.
  - cbn [commitsBetweenLoop specCommitsBetween].
    destruct (Equal (Id cur) (Id before)); [now rewrite app_nil_r|].
    unfold ParentCount.
    destruct (Parent_coherent cur 0 repo Hco) as [Hp Hco'].
    destruct (Parent GetRawObject parseCommitData cur 0 repo) as [r repo'].
    simpl in Hp, Hco'. subst r.
    destruct (parents cur) as [|p ps]; [reflexivity|]. simpl.
    destruct (fetchCommit' p) as [c|e]; [|reflexivity].
    rewrite (IH c (l ++ [cur]) repo' Hco').
    destruct (specCommitsBetween _ _ fuel before c) as [[chain|e]|];
      [|reflexivity..].
    now rewrite <- app_assoc.
Qed.

(** The chain of the description is walked to its end when the fuel exceeds
    the height of the commit it starts from. *)
Lemma specCommitsBetween_total (rank : Commit -> nat) (fuel : nat)
    (before cur : Commit) :
  (forall c p ps c', parents c = p :: ps -> fetchCommit' p = Ok c' ->
                     (rank c' < rank c)%nat) ->
  (rank cur < fuel)%nat ->
  is_Some (specCommitsBetween GetRawObject parseCommitData fuel before cur).
Proof.
  intros Hrank. revert cur. induction fuel as [|fuel IH]; intros cur Hlt; [lia|].
  cbn [specCommitsBetween].
  destruct (Equal (Id cur) (Id before)); [eauto|].
  destruct (parents cur) as [|p ps] eqn:Hps; [eauto|].
  destruct (fetchCommit' p) as [c|e] eqn:Hf; [|eauto].
  destruct (IH c) as [r Hr].
  - specialize (Hrank cur p ps c Hps Hf). lia.
  - rewrite Hr. destruct r as [chain|e]; eauto.
Qed.

(** C5, amended. [CommitsBetween] gives the empty list when [last] is nil
    or has no parent.  For a [last] with a parent it walks the first-parent
    chain from [last]: each commit is appended until one with the
    identifier of [before] is met (not appended) or a parentless commit has
    been appended; nothing is checked or signalled when [before] is not on
    the chain, the only error being that of a parent that cannot be
    fetched; and the walk ends when the chain does. *)
Theorem CommitsBetween_first_parent_chain (fuel : nat) (last before : Commit)
    (repo : Repository) :
  coherent repo ->
  CommitsBetween GetRawObject parseCommitData fuel None before repo
  = (Some (Ok []), repo)
  /\ (ParentCount last = 0%nat ->
      CommitsBetween GetRawObject parseCommitData fuel (Some last) before repo
      = (Some (Ok []), repo))
  /\ (ParentCount last <> 0%nat ->
      (CommitsBetween GetRawObject parseCommitData fuel (Some last) before repo).1
      = specCommitsBetween GetRawObject parseCommitData fuel before last
      /\ forall rank : Commit -> nat,
          (forall c p ps c', parents c = p :: ps -> fetchCommit' p = Ok c' ->
                             (rank c' < rank c)%nat) ->
          (rank last < fuel)%nat ->
          is_Some (CommitsBetween GetRawObject parseCommitData fuel
                     (Some last) before repo).1).
Proof.
  intros Hco. split; [reflexivity|]. unfold CommitsBetween. split.
  - now intros ->.
  - intros Hn. apply Nat.eqb_neq in Hn. rewrite Hn.
    assert (Heq := commitsBetweenLoop_spec fuel before last [] repo Hco).
    assert (Hspec : (commitsBetweenLoop GetRawObject parseCommitData fuel
                       before last [] repo).1
                    = specCommitsBetween GetRawObject parseCommitData fuel
                        before last).
    { rewrite Heq.
      now destruct (specCommitsBetween _ _ fuel before last) as [[chain|e]|]. }
    split; [exact Hspec|].
    intros rank Hrank Hlt. rewrite Hspec.
    now apply (specCommitsBetween_total rank).
Qed.

End BetweenFacts.

(** C5 as stated fails on a parentless [last]: the root of the diamond, with
    the merge commit as [before], is not in the result, although it is on
    the chain and is not [before]. *)
Lemma CommitsBetween_parentless_last :
  (CommitsBetween Examples.objects Examples.decode 5
     (Some Examples.commitR) Examples.commitM Examples.fresh).1 = Some (Ok [])
  /\ specCommitsBetween Examples.objects Examples.decode 5
       Examples.commitM Examples.commitR = Some (Ok [Examples.commitR])
  /\ (CommitsBetween Examples.objects Examples.decode 5
        (Some Examples.commitR) Examples.commitM Examples.fresh).1
     <> specCommitsBetween Examples.objects Examples.decode 5
          Examples.commitM Examples.commitR.
Proof. repeat split. discriminate. Qed.

(** C5, amended, on the diamond: from the merge commit back to a [before]
    that is not on its first-parent chain (A is the second parent), the
    chain M, B, R comes back whole and without an error. *)
Lemma CommitsBetween_first_parent_chain_witness :
  (CommitsBetween Examples.objects Examples.decode 5
     (Some Examples.commitM) Examples.commitA Examples.fresh).1
  = Some (Ok [Examples.commitM; Examples.commitB; Examples.commitR]).
Proof.
  destruct (CommitsBetween_first_parent_chain Examples.objects Examples.decode
              5 Examples.commitM Examples.commitA Examples.fresh)
    as (_ & _ & H).
  - apply cacheCoherent_fresh.
  - destruct H as [H _]; [discriminate|]. rewrite H. reflexivity.
Defined.

(** ** The chronological merge-list builder *)

Lemma nonIncreasing_snoc (ts : list Z) (t : Z) :
  nonIncreasing ts -> (forall x, x ∈ ts -> (t <= x)%Z) ->
  nonIncreasing (ts ++ [t]).
Proof.
  induction ts as [|x ts IH]; intros Hs Hall; [simpl; tauto|].
  destruct Hs as [Hx Hs]. cbn [app nonIncreasing]. split.
  - destruct ts as [|y ts]; simpl; [apply Hall; left | exact Hx].
  - apply IH; [exact Hs | intros y Hy; apply Hall; now right].
Qed.

Lemma nonIncreasing_insert (pre post : list Z) (x t : Z) :
  nonIncreasing (pre ++ x :: post) -> (t <= x)%Z ->
  match post with y :: _ => (y <= t)%Z | [] => True end ->
  nonIncreasing (pre ++ x :: t :: post).
Proof.
  intros Hs Hx Hpost. induction pre as [|z pre IH].
  - simpl in *. destruct Hs as [_ Hs]. repeat split; [done| |done].
    destruct post; done.
  - destruct Hs as [Hz Hs]. cbn [app nonIncreasing]. split; [|now apply IH].
    destruct pre; exact Hz.
Qed.

Lemma nonIncreasing_suffix (pre post : list Z) :
  nonIncreasing (pre ++ post) -> nonIncreasing post.
Proof.
  induction pre as [|z pre IH]; [done|]. intros [_ Hs]. now apply IH.
Qed.

Lemma locate_spec (p : nat) (acc l b a : list Element) (e : Element) :
  locate p acc l = Some (b, e, a) ->
  acc ++ l = b ++ e :: a /\ elemId e = p.
Proof.
  revert acc. induction l as [|x l IH]; intros acc; [discriminate|].
  cbn [locate]. destruct (elemId x =? p)%nat eqn:Hx.
  - intros [= <- <- <-]. split; [done | now apply Nat.eqb_eq].
  - intros H. apply IH in H as [H ?]. now rewrite <- app_assoc in H.
Qed.

Lemma locate_is_Some (p : nat) (acc l : list Element) :
  (exists e, e ∈ l /\ elemId e = p) -> is_Some (locate p acc l).
Proof.
  revert acc. induction l as [|x l IH]; intros acc [e [He Hp]].
  - now apply elem_of_nil in He.
  - cbn [locate]. destruct (elemId x =? p)%nat eqn:Hx; [eauto|].
    apply IH. exists e. split; [|done].
    apply elem_of_cons in He as [->|He]; [|done].
    apply Nat.eqb_neq in Hx. done.
Qed.

(** Where the scan breaks: at a cell of the walked part that is not dated
    before the commit and whose successor, if any, is not dated after it. *)
Lemma scanForSlot_spec (c : Commit) (before after b' a' : list Element)
    (in_ in' : Element) :
  nonIncreasing (whenOf <$> in_ :: after) ->
  (commitTime c <= whenOf in_)%Z ->
  scanForSlot c before in_ after = Some (b', in', a') ->
  b' ++ in' :: a' = before ++ in_ :: after
  /\ (commitTime c <= whenOf in')%Z
  /\ match a' with y :: _ => (whenOf y <= commitTime c)%Z | [] => True end.
Proof.
  revert before in_. induction after as [|next after IH]; intros before in_ Hs Hin;
    cbn [scanForSlot]; destruct (Equal _ _); try discriminate.
  - intros [= <- <- <-]. done.
  - fold (commitTime c). destruct Hs as [Hnext Hs]. simpl in Hnext.
    destruct (whenOf in_ =? commitTime c)%Z eqn:Heq.
    { intros [= <- <- <-]. apply Z.eqb_eq in Heq. repeat split; [done|lia]. }
    destruct ((whenOf in_ >? commitTime c)%Z && (whenOf next <? commitTime c)%Z)
      eqn:Hslot.
    { intros [= <- <- <-]. apply andb_true_iff in Hslot as [_ Hlt].
      apply Z.ltb_lt in Hlt. repeat split; [done|lia]. }
    intros H. apply IH in H as (Happ & Hle & Ha'); [| done |].
    + rewrite <- app_assoc in Happ. done.
    + apply Z.eqb_neq in Heq. apply andb_false_iff in Hslot as [Hgt|Hlt].
      * rewrite Z.gtb_ltb in Hgt. apply Z.ltb_ge in Hgt. lia.
      * apply Z.ltb_ge in Hlt. exact Hlt.
Qed.

Lemma extends_refl (l : List) : extends l l.
Proof. repeat split; auto. Qed.

Lemma extends_trans (l1 l2 l3 : List) :
  idsBelow l2 -> extends l1 l2 -> extends l2 l3 -> extends l1 l3.
Proof.
  intros Hb (Ha1 & Hin1 & Hold1) (Ha2 & Hin2 & Hold2). repeat split.
  - lia.
  - auto.
  - intros e He Hlt. apply Hold1; [|done]. apply Hold2; [done|lia].
Qed.

(** An anchor stays an anchor when cells are added. *)
Lemma anchorOk_extends (a : nat) (l l' : List) (t : Z) :
  idsBelow l -> extends l l' ->
  anchorOk (Some a) l t -> anchorOk (Some a) l' t.
Proof.
  intros Hb (_ & Hin & Hold) [[e [He Ha]] Hle]. split.
  - exists e. auto.
  - intros x Hx Hxa. apply Hle; [|done]. apply Hold; [done|].
    rewrite Hxa, <- Ha. now apply Hb.
Qed.

(** A fresh cell put anywhere into a list. *)
Lemma new_cell (l : List) (c : Commit) (pre post : list Element) :
  idsBelow l -> elements l = pre ++ post ->
  let e := mkElement (allocated l) c in
  let l1 := mkList (pre ++ e :: post) (S (allocated l)) in
  idsBelow l1 /\ extends l l1
  /\ forall t, (t <= commitTime c)%Z -> anchorOk (Some (elemId e)) l1 t.
Proof.
  intros Hb Hel e l1.
  assert (Hmem : forall x, x ∈ elements l1 <-> x = e \/ x ∈ elements l).
  { intros x. unfold l1. cbn [elements]. rewrite Hel, !elem_of_app, elem_of_cons.
    tauto. }
  split; [|split].
  - intros x [->|Hx]%Hmem; cbn [allocated l1 elemId e]; [lia|].
    specialize (Hb x Hx). lia.
  - repeat split.
    + simpl. lia.
    + intros x Hx. apply Hmem. now right.
    + intros x [->|Hx]%Hmem; [simpl; lia | done].
  - intros t Ht. split.
    + exists e. split; [apply Hmem; now left | done].
    + intros x [->|Hx]%Hmem; [done|].
      intros Hid. specialize (Hb x Hx). simpl in Hid. lia.
Qed.

Section MergeListFacts.

Variable GetRawObject : sha1 -> result ReadCloser.
Variable parseCommitData : string -> result Commit.

Local Notation "'fetchCommit''" := (fetchCommit GetRawObject parseCommitData).
Local Notation "'coherent'" := (cacheCoherent GetRawObject parseCommitData).
Local Notation "'cbPost''" := (cbPost GetRawObject parseCommitData).
Local Notation "'commitsBefore''" := (commitsBefore GetRawObject parseCommitData).

(** The loop over the parents keeps what each call keeps, and ends when
    each call does ([T] says of which identifiers that is known). *)
Lemma commitsBeforeParents_inv
    (rec : List -> sha1 -> Repository -> option cbState)
    (pr : option nat) (T : sha1 -> Prop) (ids : list sha1) :
  (forall l id repo,
      id ∈ ids -> coherent repo -> idsBelow l -> sortedList l ->
      (forall c, fetchCommit' id = Ok c -> anchorOk pr l (commitTime c)) ->
      (forall st, rec l id repo = Some st -> cbPost' l st)
      /\ (T id -> is_Some (rec l id repo))) ->
  (pr = None -> (length ids <= 1)%nat) ->
  forall l repo,
    coherent repo -> idsBelow l -> sortedList l ->
    (forall id c, id ∈ ids -> fetchCommit' id = Ok c ->
                  anchorOk pr l (commitTime c)) ->
    (forall st, commitsBeforeParents rec ids l repo = Some st -> cbPost' l st)
    /\ ((forall id, id ∈ ids -> T id) ->
        is_Some (commitsBeforeParents rec ids l repo)).
Proof.
  induction ids as [|id ids IH]; intros Hrec Hone l repo Hco Hb Hs Hanch.
  - split; [|eauto]. intros st [= <-].
    split; [done|split; [done|split; [done|apply extends_refl]]].
  - cbn [commitsBeforeParents].
    destruct (Hrec l id repo) as [Hpost Hterm]; [left|done..| |].
    { intros c Hc. apply (Hanch id c); [left | done]. }
    assert (Hnext : forall st1, rec l id repo = Some st1 -> cbErr st1 = None ->
              (forall st, commitsBeforeParents rec ids (cbList st1) (cbRepo st1)
                          = Some st -> cbPost' l st)
              /\ ((forall id, id ∈ ids -> T id) ->
                  is_Some (commitsBeforeParents rec ids (cbList st1) (cbRepo st1)))).
    { intros st1 Hst1 _. destruct (Hpost st1 Hst1) as (Hco1 & Hb1 & Hs1 & Hext1).
      destruct (IH) with (l := cbList st1) (repo := cbRepo st1) as [Hp Ht];
        [| |done..| |].
      - intros l' id' repo' Hid'. apply Hrec. now right.
      - intros Hpr. specialize (Hone Hpr). simpl in Hone. lia.
      - intros id' c' Hid' Hc'. destruct pr as [a|].
        + apply (anchorOk_extends a l); [done..|].
          apply (Hanch id' c'); [now right | done].
        + specialize (Hone eq_refl). simpl in Hone.
          destruct ids; [now apply elem_of_nil in Hid' | simpl in Hone; lia].
      - split; [|done]. intros st Hst.
        destruct (Hp st Hst) as (? & ? & ? & Hext).
        split; [done|split; [done|split; [done|]]].
        now apply (extends_trans l (cbList st1)). }
    split.
    + intros st. destruct (rec l id repo) as [st1|] eqn:Hst1; [|discriminate].
      destruct (cbErr st1) eqn:Herr.
      * intros [= <-]. now apply Hpost.
      * now apply (Hnext st1).
    + intros HT. destruct Hterm as [st1 Hst1]; [apply HT; left|].
      rewrite Hst1. destruct (cbErr st1) eqn:Herr; [eauto|].
      apply (Hnext st1); [done..|]. intros id' Hid'. apply HT. now right.
Qed.

Lemma anchorOk_le (pr : option nat) (l : List) (t t' : Z) :
  (t' <= t)%Z -> anchorOk pr l t -> anchorOk pr l t'.
Proof.
  intros Hle. destruct pr as [a|]; simpl.
  - intros [Hex Hall]. split; [done|]. intros e He Ha.
    specialize (Hall e He Ha). lia.
  - intros Hall e He. specialize (Hall e He). lia.
Qed.

Lemma cbPost_same (l : List) (repo : Repository) (err : option error) :
  coherent repo -> idsBelow l -> sortedList l ->
  cbPost' l (mkCbState err l repo).
Proof.
  intros. split; [done|split; [done|split; [done|apply extends_refl]]].
Qed.

Hypothesis Hmono : datesMonotone GetRawObject parseCommitData.

(** The parents of a commit that has just been put into the list. *)
Lemma commitsBefore_children (fuel : nat) (id : sha1) (commit : Commit)
    (pr : option nat) (l l1 : List) (repo1 : Repository) :
  (forall l parent id repo,
      coherent repo -> idsBelow l -> sortedList l ->
      (forall c, fetchCommit' id = Ok c -> anchorOk parent l (commitTime c)) ->
      (forall st, commitsBefore' fuel l parent id repo = Some st -> cbPost' l st)
      /\ (forall rank, heightBound GetRawObject parseCommitData rank ->
                       (rank id < fuel)%nat ->
                       is_Some (commitsBefore' fuel l parent id repo))) ->
  fetchCommit' id = Ok commit ->
  coherent repo1 -> idsBelow l1 -> sortedList l1 -> extends l l1 ->
  anchorOk pr l1 (commitTime commit) ->
  (pr = None -> (ParentCount commit <= 1)%nat) ->
  let loop := commitsBeforeParents
                (fun l id repo => commitsBefore' fuel l pr id repo)
                (parents commit) l1 repo1 in
  (forall st, loop = Some st -> cbPost' l st)
  /\ (forall rank, heightBound GetRawObject parseCommitData rank ->
                   (rank id < S fuel)%nat -> is_Some loop).
Proof.
  intros IH Hf Hco1 Hb1 Hs1 Hext Hanch Hone loop.
  destruct (commitsBeforeParents_inv
              (fun l id repo => commitsBefore' fuel l pr id repo) pr
              (fun p => exists rank, heightBound GetRawObject parseCommitData rank
                                     /\ (rank p < fuel)%nat)
              (parents commit)) with (l := l1) (repo := repo1) as [Hpost Hterm];
    [| exact Hone | done.. | |].
  - intros l' p repo' _ Hco' Hb' Hs' Hanch'.
    destruct (IH l' pr p repo' Hco' Hb' Hs' Hanch') as [Hp Ht].
    split; [exact Hp|]. intros (rank & Hh & Hlt). now apply (Ht rank).
  - intros p c' Hp Hc'. apply (anchorOk_le pr l1 (commitTime commit)); [|done].
    now apply (Hmono id commit p c').
  - split.
    + intros st Hst. destruct (Hpost st Hst) as (? & ? & ? & Hext').
      split; [done|split; [done|split; [done|]]].
      now apply (extends_trans l l1).
    + intros rank Hh Hlt. apply Hterm. intros p Hp. exists rank. split; [done|].
      specialize (Hh id commit p Hf Hp). lia.
Qed.

(** What every call of [commitsBefore] keeps, and when it ends. *)
Lemma commitsBefore_inv (fuel : nat) :
  forall l parent id repo,
    coherent repo -> idsBelow l -> sortedList l ->
    (forall c, fetchCommit' id = Ok c -> anchorOk parent l (commitTime c)) ->
    (forall st, commitsBefore' fuel l parent id repo = Some st -> cbPost' l st)
    /\ (forall rank, heightBound GetRawObject parseCommitData rank ->
                     (rank id < fuel)%nat ->
                     is_Some (commitsBefore' fuel l parent id repo)).
Proof.
  induction fuel as [|fuel IH]; intros l parent id repo Hco Hb Hs Hanch.
  { split; [discriminate | intros; lia]. }
  cbn [commitsBefore].
  destruct (getCommit_coherent GetRawObject parseCommitData id repo Hco)
    as [Hr Hco1].
  destruct (getCommit GetRawObject parseCommitData id repo) as [r repo1].
  simpl in Hr, Hco1. subst r.
  destruct (fetchCommit' id) as [commit|err] eqn:Hf.
  2: { split; [|eauto]. intros st [= <-]. now apply cbPost_same. }
  specialize (Hanch commit eq_refl).
  assert (Hcount : forall e : Element,
             (if (1 <? ParentCount commit)%nat then Some (elemId e) else parent)
             = None -> (ParentCount commit <= 1)%nat).
  { intros e. destruct (1 <? ParentCount commit)%nat eqn:Hc; [discriminate|].
    intros _. now apply Nat.ltb_ge in Hc. }
  destruct parent as [a|].
  - (* an anchor: scan from it *)
    destruct Hanch as [Hex Hall].
    destruct (locate_is_Some a [] (elements l) Hex) as [[[before in_] after] Hloc].
    rewrite Hloc. apply locate_spec in Hloc as [Hel Ha]. simpl in Hel.
    assert (Hin : in_ ∈ elements l).
    { rewrite Hel. apply elem_of_app. right. left. }
    destruct (scanForSlot commit before in_ after) as [[[b' in'] a']|] eqn:Hscan.
    2: { split; [|eauto]. intros st [= <-]. now apply cbPost_same. }
    apply scanForSlot_spec in Hscan as (Happ & Hle & Hnext).
    2: { unfold sortedList in Hs. rewrite Hel, fmap_app in Hs.
         now apply nonIncreasing_suffix in Hs. }
    2: { now apply Hall. }
    cbn [InsertAfter].
    set (e := mkElement (allocated l) commit).
    set (l1 := mkList (b' ++ in' :: e :: a') (S (allocated l))).
    destruct (new_cell l commit (b' ++ [in']) a' Hb) as (Hb1 & Hext & Hnew).
    { rewrite <- app_assoc. simpl. congruence. }
    rewrite <- app_assoc in Hb1, Hext, Hnew. simpl in Hb1, Hext, Hnew.
    fold e in Hb1, Hext, Hnew. fold l1 in Hb1, Hext, Hnew.
    apply (commitsBefore_children fuel id commit _ l l1 repo1 IH Hf Hco1 Hb1);
      [| exact Hext | | apply Hcount].
    + unfold sortedList, l1. cbn [elements].
      rewrite fmap_app, !fmap_cons.
      apply nonIncreasing_insert; [| exact Hle |].
      * unfold sortedList in Hs. rewrite Hel, <- Happ, fmap_app, fmap_cons in Hs.
        exact Hs.
      * destruct a'; [done | exact Hnext].
    + destruct (1 <? ParentCount commit)%nat.
      * apply Hnew. lia.
      * apply (anchorOk_extends a l); [done..|]. now split.
  - (* no anchor: append *)
    cbn [PushBack].
    set (e := mkElement (allocated l) commit).
    set (l1 := mkList (elements l ++ [e]) (S (allocated l))).
    destruct (new_cell l commit (elements l) [] Hb) as (Hb1 & Hext & Hnew).
    { now rewrite app_nil_r. }
    fold e in Hb1, Hext, Hnew. fold l1 in Hb1, Hext, Hnew.
    apply (commitsBefore_children fuel id commit _ l l1 repo1 IH Hf Hco1 Hb1);
      [| exact Hext | | apply Hcount].
    + unfold sortedList, l1. cbn [elements]. rewrite fmap_app.
      apply nonIncreasing_snoc; [exact Hs|].
      intros x (y & -> & Hy)%list_elem_of_fmap. now apply Hanch.
    + destruct (1 <? ParentCount commit)%nat.
      * apply Hnew. lia.
      * intros x Hx. unfold l1 in Hx. cbn [elements] in Hx.
        apply elem_of_app in Hx as [Hx|Hx]; [now apply Hanch|].
        apply list_elem_of_singleton in Hx as ->. unfold whenOf, commitTime.
        simpl. lia.
Qed.

Lemma getCommitsBefore_inv (fuel : nat) (id : sha1) (repo : Repository) :
  coherent repo ->
  (forall st, getCommitsBefore GetRawObject parseCommitData fuel id repo = Some st ->
              sortedList (cbList st))
  /\ (forall rank, heightBound GetRawObject parseCommitData rank ->
                   (rank id < fuel)%nat ->
                   is_Some (getCommitsBefore GetRawObject parseCommitData fuel id repo)).
Proof.
  intros Hco. unfold getCommitsBefore.
  destruct (commitsBefore_inv fuel New None id repo Hco) as [Hpost Hterm].
  - intros e He. now apply elem_of_nil in He.
  - exact I.
  - intros c _ e He. now apply elem_of_nil in He.
  - split; [|exact Hterm]. intros st Hst. now destruct (Hpost st Hst) as (_ & _ & Hs & _).
Qed.

Variable NewIdFromString : string -> result sha1.

(** C2, amended. In a repository in which no commit is dated before one of
    its parents, the list that [CommitsBefore] returns, with an error or
    without, is in non-increasing order of committer timestamp: no element
    is dated before the element that follows it.  (Elements of one and the
    same date need not be in the order of their visits.)  The call returns
    whenever the fuel exceeds the height of the start commit in the graph. *)
Theorem CommitsBefore_chronological (commitId : string) (repo : Repository) :
  coherent repo ->
  (forall fuel l err repo',
      CommitsBefore GetRawObject parseCommitData NewIdFromString fuel commitId repo
      = Some (Some l, err, repo') ->
      nonIncreasing (commitTime <$> listValues l))
  /\ (forall rank fuel id,
        NewIdFromString commitId = Ok id ->
        heightBound GetRawObject parseCommitData rank ->
        (rank id < fuel)%nat ->
        is_Some (CommitsBefore GetRawObject parseCommitData NewIdFromString
                   fuel commitId repo)).
Proof.
  intros Hco. unfold CommitsBefore. split.
  - intros fuel l err repo'.
    destruct (NewIdFromString commitId) as [id|e]; [|discriminate].
    destruct (getCommitsBefore_inv fuel id repo Hco) as [Hs _].
    destruct (getCommitsBefore _ _ fuel id repo) as [st|]; [|discriminate].
    intros [= <- _ _]. specialize (Hs st eq_refl).
    unfold listValues. rewrite <- list_fmap_compose. exact Hs.
  - intros rank fuel id -> Hh Hlt.
    destruct (getCommitsBefore_inv fuel id repo Hco) as [_ Ht].
    destruct (Ht rank Hh Hlt) as [st ->]. eauto.
Qed.

End MergeListFacts.

(** C2 as stated fails on a commit dated before its parent: the child comes
    first in the list and the parent, dated later, follows it.  And with
    three parents of one date, the third visited comes before the second. *)
Lemma CommitsBefore_not_chronological :
  beforeOutcome (CommitsBefore Examples.objects Examples.decode Examples.newId
                   5 Examples.name7 Examples.fresh)
  = Some (Some [Examples.commitLate; Examples.commitEarly], None)
  /\ ~ nonIncreasing (commitTime <$> [Examples.commitLate; Examples.commitEarly])
  /\ beforeOutcome (CommitsBefore Examples.objects Examples.decode Examples.newId
                      5 Examples.name9 Examples.fresh)
     = Some (Some [Examples.commitT; Examples.commitX; Examples.commitZ;
                   Examples.commitY], None).
Proof.
  split; [vm_compute; reflexivity|]. split; [|vm_compute; reflexivity].
  intros [H _]. vm_compute in H. now apply H.
Qed.

(** The diamond store has dated its commits in order, and has no cycle. *)
Lemma diamond_fetch (id : sha1) (c : Commit) :
  fetchCommit Examples.diamondObjects Examples.decode id = Ok c ->
  id ∈ [1; 2; 3; 4]%N.
Proof.
  unfold fetchCommit, Examples.diamondObjects.
  destruct (id <? 5)%N eqn:Hlt; [|discriminate]. apply N.ltb_lt in Hlt.
  intros Hf.
  assert (Hcases : (id = 0 \/ id = 1 \/ id = 2 \/ id = 3 \/ id = 4)%N) by lia.
  destruct Hcases as [->|[->|[->|[->| ->]]]]; [discriminate|set_solver..].
Qed.

Lemma diamond_datesMonotone :
  datesMonotone Examples.diamondObjects Examples.decode.
Proof.
  intros id c p c' Hc Hp Hc'.
  pose proof (diamond_fetch id c Hc) as Hid.
  repeat (apply elem_of_cons in Hid as [->|Hid]);
    try (now apply elem_of_nil in Hid);
    vm_compute in Hc; injection Hc as <-; cbn [parents] in Hp;
    repeat (apply elem_of_cons in Hp as [->|Hp]);
    try (now apply elem_of_nil in Hp);
    vm_compute in Hc'; injection Hc' as <-; vm_compute; discriminate.
Qed.

Lemma diamond_heightBound :
  heightBound Examples.diamondObjects Examples.decode Examples.diamondRank.
Proof.
  intros id c p Hc Hp.
  pose proof (diamond_fetch id c Hc) as Hid.
  repeat (apply elem_of_cons in Hid as [->|Hid]);
    try (now apply elem_of_nil in Hid);
    vm_compute in Hc; injection Hc as <-; cbn [parents] in Hp;
    repeat (apply elem_of_cons in Hp as [->|Hp]);
    try (now apply elem_of_nil in Hp); vm_compute; lia.
Qed.

(** C2, amended, on the diamond store. *)
Lemma CommitsBefore_chronological_witness :
  is_Some (CommitsBefore Examples.diamondObjects Examples.decode Examples.newId
             5 Examples.name1 Examples.fresh)
  /\ match CommitsBefore Examples.diamondObjects Examples.decode Examples.newId
             5 Examples.name1 Examples.fresh with
     | Some (Some l, _, _) => nonIncreasing (commitTime <$> listValues l)
     | _ => True
     end.
Proof.
  destruct (CommitsBefore_chronological Examples.diamondObjects Examples.decode
              diamond_datesMonotone Examples.newId Examples.name1 Examples.fresh
              (cacheCoherent_fresh _ _ _ _)) as [Hsorted Hterm].
  split.
  - apply (Hterm Examples.diamondRank 5%nat 1%N); [reflexivity| |vm_compute; lia].
    apply diamond_heightBound.
  - destruct (CommitsBefore _ _ _ 5 Examples.name1 Examples.fresh)
      as [[[[l|] err] repo']|] eqn:Hrun; [|exact I..].
    apply (Hsorted 5%nat l err repo' Hrun).
Defined.

(** ** The diamond *)

(** One stretch of the run of [commitsBefore] on explicit lists. *)
Ltac run_builder :=
  repeat (progress
            (cbn [locate elements elemId Nat.eqb scanForSlot Value Id app
                  InsertAfter PushBack New allocated ParentCount parents length
                  Nat.ltb Nat.leb Committer commitsBeforeParents commitsBefore
                  cbErr cbList cbRepo andb];
             unfold whenOf)).

Section Diamond.

Variable GetRawObject : sha1 -> result ReadCloser.
Variable parseCommitData : string -> result Commit.
Variable NewIdFromString : string -> result sha1.

Local Notation "'fetchCommit''" := (fetchCommit GetRawObject parseCommitData).
Local Notation "'coherent'" := (cacheCoherent GetRawObject parseCommitData).

(** One call of [getCommit] on a coherent cache, for a commit that the
    store holds. *)
Lemma getCommit_fetched (id : sha1) (c : Commit) (repo : Repository) :
  coherent repo -> fetchCommit' id = Ok c ->
  exists repo1, getCommit GetRawObject parseCommitData id repo = (Ok c, repo1)
                /\ coherent repo1.
Proof.
  intros Hco Hf.
  destruct (getCommit_coherent GetRawObject parseCommitData id repo Hco)
    as [Hr Hco1].
  destruct (getCommit GetRawObject parseCommitData id repo) as [r repo1].
  simpl in Hr, Hco1. exists repo1. split; [congruence | done].
Qed.

(** Two identifiers behind which the store holds commits of different
    dates are different. *)
Lemma fetched_apart (id id' : sha1) (c c' : Commit) :
  fetchCommit' id = Ok c -> fetchCommit' id' = Ok c' ->
  commitTime c <> commitTime c' -> Equal id id' = false.
Proof.
  intros Hc Hc' Ht. apply bool_decide_eq_false_2. intros ->. congruence.
Qed.

(** C1. For a merge commit M with parents B and A, each with the sole parent
    R, and dates t(M) > t(B) > t(A) > t(R), [CommitsBefore] of M returns,
    without an error, the list M, B, A, R: every commit once, R included,
    which is reached through B and through A. *)
Theorem CommitsBefore_diamond (commitId : string) (m b a r : sha1)
    (sM sB sA sR : Signature) (msgM msgB msgA msgR : string)
    (repo : Repository) (fuel : nat) :
  coherent repo ->
  NewIdFromString commitId = Ok m ->
  fetchCommit' m = Ok (mkCommit m [b; a] sM msgM) ->
  fetchCommit' b = Ok (mkCommit b [r] sB msgB) ->
  fetchCommit' a = Ok (mkCommit a [r] sA msgA) ->
  fetchCommit' r = Ok (mkCommit r [] sR msgR) ->
  (When sR < When sA < When sB)%Z -> (When sB < When sM)%Z ->
  beforeOutcome (CommitsBefore GetRawObject parseCommitData NewIdFromString
                   (3 + fuel) commitId repo)
  = Some (Some [mkCommit m [b; a] sM msgM; mkCommit b [r] sB msgB;
                mkCommit a [r] sA msgA; mkCommit r [] sR msgR], None).
Proof.
  intros Hco Hname HM HB HA HR [HtRA HtAB] HtBM.
  assert (Hmb : Equal m b = false)
    by (apply (fetched_apart _ _ _ _ HM HB); unfold commitTime; simpl; lia).
  assert (Hma : Equal m a = false)
    by (apply (fetched_apart _ _ _ _ HM HA); unfold commitTime; simpl; lia).
  assert (Hmr : Equal m r = false)
    by (apply (fetched_apart _ _ _ _ HM HR); unfold commitTime; simpl; lia).
  assert (Hba : Equal b a = false)
    by (apply (fetched_apart _ _ _ _ HB HA); unfold commitTime; simpl; lia).
  assert (Hbr : Equal b r = false)
    by (apply (fetched_apart _ _ _ _ HB HR); unfold commitTime; simpl; lia).
  assert (Har : Equal a r = false)
    by (apply (fetched_apart _ _ _ _ HA HR); unfold commitTime; simpl; lia).
  assert (Hrr : Equal r r = true) by now apply bool_decide_eq_true_2.
  unfold CommitsBefore, getCommitsBefore. rewrite Hname.
  (* M is appended *)
  cbn [Nat.add]. run_builder.
  destruct (getCommit_fetched m _ repo Hco HM) as (repo1 & -> & Hco1).
  run_builder.
  (* B goes after M, the last cell *)
  destruct (getCommit_fetched b _ repo1 Hco1 HB) as (repo2 & -> & Hco2).
  run_builder.
  rewrite Hmb.
  run_builder.
  (* R, reached through B, goes after B, the last cell *)
  destruct (getCommit_fetched r _ repo2 Hco2 HR) as (repo3 & -> & Hco3).
  run_builder.
  rewrite Hmr, Hbr.
  replace (When sM =? When sR)%Z with false by (symmetry; apply Z.eqb_neq; lia).
  replace (When sB <? When sR)%Z with false by (symmetry; apply Z.ltb_ge; lia).
  rewrite andb_false_r.
  run_builder.
  (* A finds its slot between B and R *)
  destruct (getCommit_fetched a _ repo3 Hco3 HA) as (repo4 & -> & Hco4).
  run_builder.
  rewrite Hma, Hba.
  replace (When sM =? When sA)%Z with false by (symmetry; apply Z.eqb_neq; lia).
  replace (When sB <? When sA)%Z with false by (symmetry; apply Z.ltb_ge; lia).
  rewrite andb_false_r.
  replace (When sB =? When sA)%Z with false by (symmetry; apply Z.eqb_neq; lia).
  replace (When sB >? When sA)%Z with true by (symmetry; apply Z.gtb_lt; lia).
  replace (When sR <? When sA)%Z with true by (symmetry; apply Z.ltb_lt; lia).
  run_builder.
  (* R, reached through A, is found in the list *)
  destruct (getCommit_fetched r _ repo4 Hco4 HR) as (repo5 & -> & Hco5).
  run_builder.
  rewrite Hmr, Hbr, Har, Hrr.
  replace (When sM =? When sR)%Z with false by (symmetry; apply Z.eqb_neq; lia).
  replace (When sB =? When sR)%Z with false by (symmetry; apply Z.eqb_neq; lia).
  replace (When sA =? When sR)%Z with false by (symmetry; apply Z.eqb_neq; lia).
  replace (When sB <? When sR)%Z with false by (symmetry; apply Z.ltb_ge; lia).
  replace (When sA <? When sR)%Z with false by (symmetry; apply Z.ltb_ge; lia).
  replace (When sR <? When sR)%Z with false by (symmetry; apply Z.ltb_ge; lia).
  rewrite !andb_false_r.
  reflexivity.
Qed.

End Diamond.

(** C1 on the diamond of the example store. *)
Lemma CommitsBefore_diamond_witness :
  beforeOutcome (CommitsBefore Examples.objects Examples.decode Examples.newId
                   3 Examples.name1 Examples.fresh)
  = Some (Some [Examples.commitM; Examples.commitB; Examples.commitA;
                Examples.commitR], None).
Proof.
  apply (CommitsBefore_diamond Examples.objects Examples.decode Examples.newId
           Examples.name1 1%N 2%N 3%N 4%N
           (Examples.who 40) (Examples.who 30) (Examples.who 20) (Examples.who 10)
           "Merge branch A" "Work on B" "Work on A" "Initial commit"
           Examples.fresh 0).
  - apply cacheCoherent_fresh.
  - reflexivity.
  - reflexivity.
  - reflexivity.
  - reflexivity.
  - reflexivity.
  - simpl. lia.
  - simpl. lia.
Defined.

(** ** The history walker *)

Section WalkerFacts.

Variable GetRawObject : sha1 -> result ReadCloser.
Variable parseCommitData : string -> result Commit.

Local Notation "'fetchCommit''" := (fetchCommit GetRawObject parseCommitData).
Local Notation "'coherent'" := (cacheCoherent GetRawObject parseCommitData).
Local Notation "'walk''" := (walk GetRawObject parseCommitData).
Local Notation "'walkParents''" := (walkParents GetRawObject parseCommitData).

(** *** The cap of a pager *)

Lemma walkParents_cap (rec : Commit -> walkState -> option walkState)
    (count : nat) (c : Commit) (n : nat) :
  (forall p s s', rec p s = Some s' -> withinCap count s -> withinCap count s') ->
  forall i st st',
    walkParents' rec c n i st = Some st' ->
    withinCap count st -> withinCap count st'.
Proof.
  intros Hrec. induction n as [|n IH]; intros i st st'; cbn [walkParents].
  - now intros [= <-].
  - destruct (Parent GetRawObject parseCommitData c i (wsRepo st))
      as [[p|e] repo].
    + destruct (rec p _) as [s1|] eqn:Hs1; [|discriminate].
      intros Hst' Hinv.
      assert (Hinv1 : withinCap count s1) by (apply (Hrec _ _ _ Hs1); exact Hinv).
      destruct (wsStopped s1 || bool_decide (wsErr s1 <> None)).
      * now injection Hst' as <-.
      * now apply (IH _ _ _ Hst').
    + now intros [= <-].
Qed.

Lemma makePager_cap (filter : option (Commit -> bool)) (skip count : nat)
    (s : pagerState) (c : Commit) :
  (pgKept s <= count)%nat ->
  let '(d, s') := makePager filter skip count s c in
  (pgKept s' <= count)%nat
  /\ match d with
     | KeepAndContinue => pgKept s' = S (pgKept s)
     | _ => pgKept s' = pgKept s
     end.
Proof.
  intros Hle. unfold makePager.
  destruct (match filter with Some f => f c | None => true end); [|done].
  destruct (pgSkipped s <? skip)%nat; [done|].
  destruct (pgKept s <? count)%nat eqn:Hk; [|done].
  apply Nat.ltb_lt in Hk. simpl. lia.
Qed.

Lemma walk_cap (filter : option (Commit -> bool)) (skip count : nat)
    (relevance : option (Commit -> bool)) (fuel : nat) :
  forall c st st',
    walk' fuel (makePager filter skip count) relevance c st = Some st' ->
    withinCap count st -> withinCap count st'.
Proof.
  induction fuel as [|fuel IH]; intros c st st'; [discriminate|].
  cbn [walk]. destruct (existsb _ _); [now intros [= <-]|].
  intros Hrun [Hlen Hle].
  destruct (match relevance with Some r => r c | None => true end).
  - pose proof (makePager_cap filter skip count (wsPager st) c Hle) as Hpg.
    destruct (makePager filter skip count (wsPager st) c) as [d pg].
    destruct Hpg as [Hle' Hkept].
    destruct d.
    + apply (walkParents_cap _ count _ _ IH _ _ _ Hrun).
      split; simpl; [rewrite length_app; simpl; lia | done].
    + apply (walkParents_cap _ count _ _ IH _ _ _ Hrun).
      split; simpl; [lia | done].
    + injection Hrun as <-. split; simpl; [lia | done].
  - apply (walkParents_cap _ count _ _ IH _ _ _ Hrun). now split.
Qed.

Variable makeHistorySearcher : string -> result (Commit -> bool).
Variable NewIdFromString : string -> result sha1.

(** C6. A list that [SearchCommits] returns holds at most [ItemsPerSearch],
    that is 100, commits, however many commits of the ancestry the searcher
    accepts. *)
Theorem SearchCommits_cap (fuel : nat) (commitId keyword : string)
    (repo repo' : Repository) (l : list Commit) :
  SearchCommits GetRawObject parseCommitData makeHistorySearcher NewIdFromString
    fuel commitId keyword repo = (Some (Ok l), repo') ->
  (length l <= 100)%nat.
Proof.
  unfold SearchCommits, searchCommits, walkHistory, walkFrom.
  destruct (NewIdFromString commitId) as [id|e]; [|discriminate].
  destruct (getCommit GetRawObject parseCommitData id repo) as [[commit|e] repo1];
    [|discriminate].
  destruct (makeHistorySearcher keyword) as [searcher|e]; [|discriminate].
  destruct (walk' fuel _ None commit _) as [st|] eqn:Hwalk; [|discriminate].
  apply walk_cap in Hwalk as [Hlen Hle]; [|split; simpl; lia].
  destruct (wsErr st); [discriminate|]. intros [= <- _].
  unfold ItemsPerSearch in Hle. lia.
Qed.

End WalkerFacts.

(** C6 on a line of 150 commits whose messages all hold the keyword: the
    search from the newest returns 100 of them. *)
Lemma SearchCommits_cap_witness :
  exists l repo',
    SearchCommits Examples.lineObjects Examples.lineDecode Examples.searcher
      Examples.newId 200 Examples.name149 "bug" Examples.fresh
    = (Some (Ok l), repo')
    /\ length (filter (fun c => Contains (CommitMessage c) "bug" = true) l) = 100%nat
    /\ (length l <= 100)%nat.
Proof.
  destruct (SearchCommits Examples.lineObjects Examples.lineDecode
              Examples.searcher Examples.newId 200 Examples.name149 "bug"
              Examples.fresh) as [[[l|e]|] repo'] eqn:Hrun;
    try (vm_compute in Hrun; discriminate).
  exists l, repo'. split; [reflexivity|]. split.
  - vm_compute in Hrun. injection Hrun as <- _. vm_compute. reflexivity.
  - exact (SearchCommits_cap _ _ _ _ _ _ _ _ _ _ Hrun).
Defined.

(** *** A path that no commit of the ancestry changed *)

Section RelPathFacts.

Variable GetRawObject : sha1 -> result ReadCloser.
Variable parseCommitData : string -> result Commit.

Local Notation "'fetchCommit''" := (fetchCommit GetRawObject parseCommitData).
Local Notation "'coherent'" := (cacheCoherent GetRawObject parseCommitData).
Local Notation "'walk''" := (walk GetRawObject parseCommitData).
Local Notation "'walkParents''" := (walkParents GetRawObject parseCommitData).
Local Notation "'reachable''" := (reachable GetRawObject parseCommitData).

Lemma fetchCommit_Id (id : sha1) (c : Commit) :
  fetchCommit' id = Ok c -> Id c = id.
Proof.
  unfold fetchCommit. destruct (GetRawObject id) as [[data|?]|?]; try discriminate.
  destruct (parseCommitData data); [|discriminate]. now intros [= <-].
Qed.

Lemma reachable_fetched (id0 : sha1) (c0 c : Commit) :
  fetchCommit' id0 = Ok c0 -> reachable' c0 c -> fetchCommit' (Id c) = Ok c.
Proof.
  intros H0. induction 1 as [|c c' p _ _ _ Hf].
  - now rewrite (fetchCommit_Id _ _ H0).
  - now rewrite (fetchCommit_Id _ _ Hf).
Qed.

Variable visit : pagerState -> Commit -> decision * pagerState.
Variable comparator : Commit -> bool.
Variable c0 : Commit.

Hypothesis Hquiet : forall c, reachable' c0 c -> comparator c = false.

(** The parents of a commit of the ancestry, fetched on a coherent cache,
    are of the ancestry. *)
Lemma Parent_reachable (c : Commit) (i : nat) (repo : Repository) :
  coherent repo -> reachable' c0 c ->
  let '(r, repo1) := Parent GetRawObject parseCommitData c i repo in
  coherent repo1
  /\ match r with
     | Ok p => reachable' c0 p
     | Err _ => forall id, parents c !! i = Some id ->
                           exists e, fetchCommit' id = Err e
     end.
Proof.
  intros Hco Hc.
  destruct (Parent_coherent GetRawObject parseCommitData c i repo Hco)
    as [Hr Hco1].
  destruct (Parent GetRawObject parseCommitData c i repo) as [r repo1].
  simpl in Hr, Hco1. split; [done|]. subst r.
  destruct (parents c !! i) as [id|] eqn:Hi.
  - destruct (fetchCommit' id) as [p|e] eqn:Hf.
    + apply (reachable_parent _ _ _ c p id); [done| |done].
      now apply list_elem_of_lookup_2 in Hi.
    + intros ? [= <-]. eauto.
  - discriminate.
Qed.

(** While the walk stays in the ancestry, nothing gets into the result. *)
Lemma walkParents_quiet (rec : Commit -> walkState -> option walkState)
    (c : Commit) (n : nat) :
  (forall p s s', reachable' c0 p -> rec p s = Some s' ->
                  wsResult s = [] /\ coherent (wsRepo s) ->
                  wsResult s' = [] /\ coherent (wsRepo s')) ->
  reachable' c0 c ->
  forall i st st',
    walkParents' rec c n i st = Some st' ->
    wsResult st = [] /\ coherent (wsRepo st) ->
    wsResult st' = [] /\ coherent (wsRepo st').
Proof.
  intros Hrec Hc. induction n as [|n IH]; intros i st st'; cbn [walkParents].
  - now intros [= <-].
  - intros Hrun [Hres Hco].
    pose proof (Parent_reachable c i (wsRepo st) Hco Hc) as Hp.
    destruct (Parent GetRawObject parseCommitData c i (wsRepo st))
      as [[p|e] repo1]; destruct Hp as [Hco1 Hp].
    + destruct (rec p _) as [s1|] eqn:Hs1; [|discriminate].
      apply (Hrec p _ _ Hp) in Hs1 as Hinv1; [|now split].
      destruct (wsStopped s1 || bool_decide (wsErr s1 <> None)).
      * now injection Hrun as <-.
      * now apply (IH _ _ _ Hrun).
    + injection Hrun as <-. now split.
Qed.

Lemma walk_quiet (fuel : nat) :
  forall c st st',
    reachable' c0 c ->
    walk' fuel visit (Some comparator) c st = Some st' ->
    wsResult st = [] /\ coherent (wsRepo st) ->
    wsResult st' = [] /\ coherent (wsRepo st').
Proof.
  induction fuel as [|fuel IH]; intros c st st' Hc; [discriminate|].
  cbn [walk]. intros Hrun [Hres Hco]. rewrite Hres in Hrun.
  cbn [existsb] in Hrun. rewrite (Hquiet c Hc) in Hrun.
  apply (walkParents_quiet _ c _ (fun p s s' Hp => IH p s s' Hp) Hc) in Hrun;
    [done | now split].
Qed.

(** With every parent at hand and fuel above the height, the walk runs to
    its end without an error and without a stop. *)
Lemma walkParents_total (rec : Commit -> walkState -> option walkState)
    (c : Commit) (n : nat) :
  ancestryFetchable GetRawObject parseCommitData c0 ->
  (forall p s, p ∈ parents c -> wsResult s = [] /\ coherent (wsRepo s) ->
               forall cp, fetchCommit' p = Ok cp ->
               exists s', rec cp s = Some s'
                          /\ wsErr s' = None /\ wsStopped s' = false
                          /\ wsResult s' = [] /\ coherent (wsRepo s')) ->
  reachable' c0 c ->
  forall i st,
    (n + i = length (parents c))%nat ->
    wsResult st = [] /\ coherent (wsRepo st) ->
    wsErr st = None -> wsStopped st = false ->
    exists st', walkParents' rec c n i st = Some st'
                /\ wsErr st' = None /\ wsStopped st' = false
                /\ wsResult st' = [] /\ coherent (wsRepo st').
Proof.
  intros Hall Hrec Hc. induction n as [|n IH]; intros i st Hni [Hres Hco] He Hs;
    cbn [walkParents].
  - exists st. done.
  - destruct (lookup_lt_is_Some_2 (parents c) i) as [id Hid]; [lia|].
    assert (Hin : id ∈ parents c) by now apply list_elem_of_lookup_2 in Hid.
    destruct (Hall c id Hc Hin) as [cp Hcp].
    destruct (Parent_coherent GetRawObject parseCommitData c i (wsRepo st) Hco)
      as [Hr Hco1].
    destruct (Parent GetRawObject parseCommitData c i (wsRepo st)) as [r repo1].
    simpl in Hr, Hco1. rewrite Hid, Hcp in Hr. subst r.
    destruct (Hrec id (mkWalkState (wsResult st) (wsPager st) repo1 false None)
                Hin) with (cp := cp)
      as (s1 & -> & He1 & Hs1 & Hres1 & Hco2); [now split | done |].
    rewrite He1, Hs1. rewrite bool_decide_eq_false_2 by (intros H; now apply H).
    cbn [orb]. apply IH; [lia | now split | done..].
Qed.

Lemma walk_total (rank : sha1 -> nat) (fuel : nat) :
  ancestryFetchable GetRawObject parseCommitData c0 ->
  heightBound GetRawObject parseCommitData rank ->
  forall id c st,
    fetchCommit' id = Ok c -> reachable' c0 c -> (rank id < fuel)%nat ->
    wsResult st = [] /\ coherent (wsRepo st) ->
    exists st', walk' fuel visit (Some comparator) c st = Some st'
                /\ wsErr st' = None /\ wsStopped st' = false
                /\ wsResult st' = [] /\ coherent (wsRepo st').
Proof.
  intros Hall Hh. induction fuel as [|fuel IH]; intros id c st Hf Hc Hlt [Hres Hco];
    [lia|].
  cbn [walk]. rewrite Hres. cbn [existsb]. rewrite (Hquiet c Hc).
  apply (walkParents_total _ c _ Hall); [|done|unfold ParentCount; lia|now split|done..].
  intros p s Hp Hinv cp Hcp. apply (IH p cp s Hcp); [|specialize (Hh id c p Hf Hp); lia|done].
  now apply (reachable_parent _ _ _ c cp p).
Qed.

End RelPathFacts.

Section RelPath.

Variable GetRawObject : sha1 -> result ReadCloser.
Variable parseCommitData : string -> result Commit.
Variable makePathChecker : string -> Commit -> bool.
Variable makePathComparator : string -> Commit -> bool.
Variable NewIdFromString : string -> result sha1.

(** C8. When no commit of the ancestry of [id], the commit of [id]
    included, changed the path, [GetCommitOfRelPath] does not report the
    absence as an error: whenever it returns, it returns the nil commit
    with a nil error, unless a parent could not be fetched, whose error it
    then returns; and with every parent at hand it does return nil and
    nil, as soon as the fuel exceeds the height of the start commit. *)
Theorem GetCommitOfRelPath_none (commitId path : string) (id : sha1)
    (c0 : Commit) (repo : Repository) :
  cacheCoherent GetRawObject parseCommitData repo ->
  NewIdFromString commitId = Ok id ->
  fetchCommit GetRawObject parseCommitData id = Ok c0 ->
  (forall c, reachable GetRawObject parseCommitData c0 c ->
             makePathComparator path c = false) ->
  (forall fuel r repo',
      GetCommitOfRelPath GetRawObject parseCommitData makePathChecker
        makePathComparator NewIdFromString fuel commitId path repo
      = (Some r, repo') ->
      r = Ok None \/ exists e, r = Err e)
  /\ (ancestryFetchable GetRawObject parseCommitData c0 ->
      forall rank fuel,
        heightBound GetRawObject parseCommitData rank ->
        (rank id < fuel)%nat ->
        exists repo',
          GetCommitOfRelPath GetRawObject parseCommitData makePathChecker
            makePathComparator NewIdFromString fuel commitId path repo
          = (Some (Ok None), repo')).
Proof.
  intros Hco Hname Hf Hquiet.
  unfold GetCommitOfRelPath, getCommitOfRelPath, walkFilteredHistory, walkFrom.
  rewrite Hname.
  destruct (getCommit_coherent GetRawObject parseCommitData id repo Hco)
    as [Hr Hco1].
  destruct (getCommit GetRawObject parseCommitData id repo) as [r0 repo1].
  simpl in Hr, Hco1. rewrite Hf in Hr. subst r0.
  split.
  - intros fuel r repo'.
    destruct (walk _ _ fuel _ _ c0 _) as [st|] eqn:Hwalk; [|discriminate].
    apply (walk_quiet GetRawObject parseCommitData _ _ c0 Hquiet) in Hwalk
      as [Hres _]; [|apply reachable_start|now split].
    destruct (wsErr st) as [e|].
    + intros [= <- _]. right. eauto.
    + rewrite Hres. intros [= <- _]. now left.
  - intros Hall rank fuel Hh Hlt.
    destruct (walk_total GetRawObject parseCommitData
                (makePager (Some (makePathChecker path)) 0 1)
                (makePathComparator path) c0 Hquiet rank fuel Hall Hh id c0
                (mkWalkState [] (mkPagerState 0 0) repo1 false None) Hf)
      as (st & -> & He & _ & Hres & _); [apply reachable_start|done|now split|].
    rewrite He, Hres. eauto.
Qed.

End RelPath.

Lemma diamond_fetchable (c0 : Commit) :
  fetchCommit Examples.diamondObjects Examples.decode 1%N = Ok c0 ->
  ancestryFetchable Examples.diamondObjects Examples.decode c0.
Proof.
  intros H0 c p Hc Hp.
  pose proof (reachable_fetched _ _ _ _ _ H0 Hc) as Hf.
  pose proof (diamond_fetch _ _ Hf) as Hid.
  destruct c as [id ps s msg]. cbn [Id parents] in *.
  repeat (apply elem_of_cons in Hid as [->|Hid]);
    try (now apply elem_of_nil in Hid);
    vm_compute in Hf; injection Hf as <- <- <-;
    repeat (apply elem_of_cons in Hp as [->|Hp]);
    try (now apply elem_of_nil in Hp);
    eexists; vm_compute; reflexivity.
Qed.

(** C8 on the diamond store, for a path that no commit changed. *)
Lemma GetCommitOfRelPath_none_witness :
  (GetCommitOfRelPath Examples.diamondObjects Examples.decode
     Examples.inEveryTree Examples.neverChanged Examples.newId
     5 Examples.name1 "README.md" Examples.fresh).1 = Some (Ok None).
Proof.
  destruct (GetCommitOfRelPath_none Examples.diamondObjects Examples.decode
              Examples.inEveryTree Examples.neverChanged Examples.newId
              Examples.name1 "README.md" 1%N Examples.commitM Examples.fresh)
    as [_ Hret].
  - apply cacheCoherent_fresh.
  - reflexivity.
  - reflexivity.
  - reflexivity.
  - destruct (Hret (diamond_fetchable _ eq_refl) Examples.diamondRank 5%nat
                diamond_heightBound) as [repo' ->]; [vm_compute; lia|].
    reflexivity.
Defined.

(** * Further properties *)

(** ** Reference resolution *)

Lemma Contains_app_r (a b p : string) :
  Contains b p = true -> Contains (a +:+ b) p = true.
Proof.
  intros Hb. induction a as [|c a IH]; [exact Hb|].
  rewrite string_app_cons. cbn [Contains].
  destruct (String.prefix p (String c (a +:+ b))); [reflexivity | exact IH].
Qed.

Lemma substring_head_length (s : string) (n : nat) :
  (n <= String.length s)%nat -> String.length (String.substring 0 n s) = n.
Proof.
  revert n. induction s as [|c s IH]; intros n Hn.
  - simpl in Hn. destruct n; [reflexivity | lia].
  - destruct n as [|n]; [reflexivity|]. simpl in *. rewrite IH; lia.
Qed.

(** A pattern that begins with the letter r does not match where another
    character stands. *)
Lemma Contains_r_cons (c : ascii) (s : string) :
  Contains (String c s) "r" = false ->
  Ascii.eqb "r" c = false /\ Contains s "r" = false.
Proof.
  cbn [Contains String.prefix].
  destruct (ascii_dec "r" c) as [<-|Hne].
  - now destruct s.
  - intros H. split; [now apply Ascii.eqb_neq | exact H].
Qed.

Section ResolverMore.

Variable IsSha1 : string -> bool.

(** X1. In packed-refs the ref path is looked for as a substring of the lines:
    a path that has no loose file resolves to the identifier at the head of
    the first line that contains it, also when that line is the entry of
    another ref [q], of whose name the path is only a part. *)
Theorem packed_ref_substring_match (fs : RefStore) (fuel : nat)
    (p q id : string) (before after : list string) (scanErr : option error) :
  looseFiles fs !! p = None ->
  packedRefs fs = Ok (mkPackedRefs (before ++ (id +:+ " " +:+ q) :: after) scanErr) ->
  Forall (fun t => Contains t p = false) before ->
  Contains q p = true ->
  noNewline (id +:+ " " +:+ q) = true ->
  String.length id = 40%nat -> IsSha1 id = true ->
  getCommitIdOfRef IsSha1 (S fuel) fs p = Some (Ok id).
Proof.
  intros Hp Hpk Hbefore Hq Hnl Hlen Hid.
  assert (Hln : Contains (id +:+ " " +:+ q) p = true).
  { apply Contains_app_r. now apply (Contains_app_r " "). }
  rewrite getCommitIdOfRef_step. unfold readRef, getCommitIdOfPackedRef.
  rewrite Hp, Hpk. cbn [packedLines].
  rewrite (scanPackedLines_first _ _ _ _ Hbefore Hln).
  rewrite (refRexpSubmatch_noNewline _ Hnl).
  now rewrite parseSha1_valid.
Qed.

(** X2. When every ref path that the resolution comes to has a loose file, the
    content of packed-refs plays no part in the result. *)
Theorem loose_refs_shadow_packed (loose : gmap string string)
    (pk pk' : result PackedRefs) (fuel : nat) (p : string) :
  (forall n q, hops (mkRefStore loose pk) n p = Some q -> is_Some (loose !! q)) ->
  getCommitIdOfRef IsSha1 fuel (mkRefStore loose pk) p
  = getCommitIdOfRef IsSha1 fuel (mkRefStore loose pk') p.
Proof.
  revert p. induction fuel as [|fuel IH]; intros p Hloose; [reflexivity|].
  rewrite !getCommitIdOfRef_step.
  destruct (Hloose 0%nat p eq_refl) as [f Hf].
  unfold readRef. cbn [looseFiles]. rewrite Hf.
  destruct (refRexpSubmatch f) as [target|] eqn:Ht; [|reflexivity].
  apply IH. intros n q Hq. apply (Hloose (S n)). cbn [hops].
  unfold hop, readRef. cbn [looseFiles]. now rewrite Hf, Ht.
Qed.

(** X3. Whatever the chain of refs, an identifier that the resolution returns
    has 40 characters and is one that [IsSha1] accepts. *)
Theorem resolved_id_wellformed (fs : RefStore) (fuel : nat) (p s : string) :
  getCommitIdOfRef IsSha1 fuel fs p = Some (Ok s) ->
  String.length s = 40%nat /\ IsSha1 s = true.
Proof.
  revert p. induction fuel as [|fuel IH]; intros p; [discriminate|].
  rewrite getCommitIdOfRef_step.
  destruct (readRef fs p) as [f|]; [|discriminate].
  destruct (refRexpSubmatch f); [apply IH|].
  unfold parseSha1. destruct (String.length f <? 40)%nat eqn:Hlen; [discriminate|].
  apply Nat.ltb_ge in Hlen.
  destruct (IsSha1 (String.substring 0 40 f)) eqn:Hsha; [|discriminate].
  intros [= <-]. split; [now apply substring_head_length | exact Hsha].
Qed.

Lemma getCommitIdOfRef_hops (fs : RefStore) (n fuel : nat) (p q : string) :
  hops fs n p = Some q ->
  getCommitIdOfRef IsSha1 (n + fuel) fs p = getCommitIdOfRef IsSha1 fuel fs q.
Proof.
  revert p. induction n as [|n IH]; intros p; cbn [hops Nat.add].
  - now intros [= ->].
  - destruct (hop fs p) as [t|] eqn:Ht; [|discriminate].
    intros Hq. rewrite (getCommitIdOfRef_hop _ _ _ _ _ Ht). now apply IH.
Qed.

(** X4. The resolution of a ref path from which [n] jumps lead to [q] is the
    resolution of [q]: nothing of the paths passed on the way is kept. *)
Theorem resolution_follows_hops (fs : RefStore) (n fuel : nat) (p q : string) :
  hops fs n p = Some q ->
  getCommitIdOfRef IsSha1 (n + fuel) fs p = getCommitIdOfRef IsSha1 fuel fs q.
Proof.
  revert p q. induction n as [|n IH]; intros p q Hq.
  - injection Hq as <-. reflexivity.
  - cbn [hops] in Hq. destruct (hop fs p) as [t|] eqn:Ht; [|discriminate].
    cbn [Nat.add]. rewrite (getCommitIdOfRef_hop _ _ _ _ _ Ht).
    apply IH, Hq.
Qed.

(** X6. A chain of refs that ends at a ref path with no loose file and no line
    in packed-refs fails with the error of opening packed-refs when that
    file cannot be opened, and with "Ref not found in packed-refs" when it
    was scanned to its end without an error; the error of reading the
    loose file is not what the caller gets. *)
Theorem dangling_ref_error (fs : RefStore) (n fuel : nat) (p q : string) :
  hops fs n p = Some q ->
  looseFiles fs !! q = None ->
  (forall e, packedRefs fs = Err e ->
             getCommitIdOfRef IsSha1 (n + S fuel) fs p = Some (Err e))
  /\ (forall lines,
        packedRefs fs = Ok (mkPackedRefs lines None) ->
        Forall (fun t => Contains t q = false) lines ->
        getCommitIdOfRef IsSha1 (n + S fuel) fs p = Some (Err ErrRefNotFound)).
Proof.
  intros Hq Hloose. rewrite (getCommitIdOfRef_hops fs n (S fuel) p q Hq).
  rewrite getCommitIdOfRef_step. unfold readRef, getCommitIdOfPackedRef.
  rewrite Hloose. split.
  - now intros e ->.
  - intros lines -> Hnone. cbn [packedLines packedScanErr].
    assert (Hscan : scanPackedLines lines q = None).
    { induction Hnone as [|t lines Ht _ IH]; [reflexivity|].
      cbn [scanPackedLines]. now rewrite Ht. }
    now rewrite Hscan.
Qed.

(** X5. The pattern of a symbolic ref is looked for anywhere in the content:
    a line "ref: <target>" that comes after other text (in which no letter
    r stands, an identifier line for one) makes the ref symbolic, and the
    text before it is not read as an identifier. *)
Theorem ref_line_after_other_text (fs : RefStore) (fuel : nat)
    (p pre target rest : string) :
  Contains pre "r" = false ->
  noNewline target = true ->
  readRef fs p = Ok (pre +:+ "ref: " +:+ target +:+ String newline rest) ->
  getCommitIdOfRef IsSha1 (S fuel) fs p = getCommitIdOfRef IsSha1 fuel fs target.
Proof.
  intros Hpre Htarget Hrd. apply getCommitIdOfRef_hop. unfold hop. rewrite Hrd.
  clear Hrd. induction pre as [|c pre IH].
  - change (EmptyString +:+ ?x) with x. rewrite !string_app_cons.
    change (EmptyString +:+ ?x) with x.
    cbn [refRexpSubmatch stripPrefix Ascii.eqb Bool.eqb mbind option_bind].
    now rewrite (untilNewline_line _ _ Htarget).
  - apply Contains_r_cons in Hpre as [Hc Hpre].
    rewrite string_app_cons. cbn [refRexpSubmatch stripPrefix].
    rewrite Hc. cbn [mbind option_bind]. now apply IH.
Qed.

End ResolverMore.

(** A ref path that is only the beginning of the name of a packed ref. *)
Lemma packed_ref_substring_match_witness :
  getCommitIdOfRef Examples.hexSha1 1 Examples.packedOnly "refs/heads/de"
  = Some (Ok Examples.idA).
Proof.
  apply (packed_ref_substring_match Examples.hexSha1 Examples.packedOnly 0
           "refs/heads/de" "refs/heads/dev" Examples.idA
           ["# pack-refs with: peeled fully-peeled"] [] None).
  - reflexivity.
  - reflexivity.
  - constructor; [reflexivity | constructor].
  - reflexivity.
  - reflexivity.
  - reflexivity.
  - reflexivity.
Defined.

Lemma loose_refs_shadow_packed_witness :
  getCommitIdOfRef Examples.hexSha1 5 Examples.looseChain "HEAD"
  = getCommitIdOfRef Examples.hexSha1 5 MoreExamples.looseAndPacked "HEAD".
Proof.
  apply (loose_refs_shadow_packed Examples.hexSha1
           (looseFiles Examples.looseChain) Examples.noPacked
           (packedRefs Examples.packedOnly) 5 "HEAD").
  intros [|[|n]] q Hq; vm_compute in Hq; [| |discriminate];
    injection Hq as <-; vm_compute; eauto.
Defined.

Lemma resolved_id_wellformed_witness :
  String.length Examples.idA = 40%nat /\ Examples.hexSha1 Examples.idA = true.
Proof.
  apply (resolved_id_wellformed Examples.hexSha1 Examples.looseChain 2 "HEAD").
  reflexivity.
Defined.

Lemma resolution_follows_hops_witness :
  getCommitIdOfRef Examples.hexSha1 (1 + 1) Examples.looseChain "HEAD"
  = getCommitIdOfRef Examples.hexSha1 1 Examples.looseChain "refs/heads/master".
Proof.
  apply (resolution_follows_hops Examples.hexSha1 Examples.looseChain 1 1
           "HEAD" "refs/heads/master").
  reflexivity.
Defined.

(** The identifier of the first line is not what the branch resolves to. *)
Lemma ref_line_after_other_text_witness :
  getCommitIdOfRef Examples.hexSha1 2 MoreExamples.twoLines "refs/heads/odd"
  = Some (Ok MoreExamples.idB).
Proof.
  rewrite (ref_line_after_other_text Examples.hexSha1 MoreExamples.twoLines 1
             "refs/heads/odd" (Examples.idA +:+ Examples.nl)
             "refs/heads/master" EmptyString);
    reflexivity.
Defined.

(** HEAD of a repository just made. *)
Lemma dangling_ref_error_witness :
  getCommitIdOfRef Examples.hexSha1 2 MoreExamples.unborn "HEAD"
  = Some (Err (ErrOther "open packed-refs")).
Proof.
  apply (proj1 (dangling_ref_error Examples.hexSha1 MoreExamples.unborn 1 0
                  "HEAD" "refs/heads/master" eq_refl eq_refl)).
  reflexivity.
Defined.

(** ** The commit store *)

Section StoreMore.

Variable GetRawObject : sha1 -> result ReadCloser.
Variable parseCommitData : string -> result Commit.

Local Notation "'getCommit''" := (getCommit GetRawObject parseCommitData).
Local Notation "'fetchCommit''" := (fetchCommit GetRawObject parseCommitData).
Local Notation "'coherent'" := (cacheCoherent GetRawObject parseCommitData).
Local Notation "'getCommitSeq''" := (getCommitSeq GetRawObject parseCommitData).

(** What a call does to the cache, hit or miss. *)
Lemma getCommit_lookup (id : sha1) (repo : Repository) (k : sha1) :
  cacheLookup (getCommit' id repo).2 k
  = match cacheLookup repo id, (getCommit' id repo).1 with
    | None, Ok c => if decide (id = k) then Some c else cacheLookup repo k
    | _, _ => cacheLookup repo k
    end.
Proof.
  destruct (cacheLookup repo id) as [c0|] eqn:Hc.
  - now rewrite (getCommit_hit _ _ _ _ _ Hc).
  - pose proof (getCommit_miss GetRawObject parseCommitData id repo Hc) as H.
    destruct (getCommit' id repo) as [[c|e] repo']; simpl;
      destruct H as (_ & _ & Hlk); apply Hlk.
Qed.

Lemma getCommit_cache_grows (id k : sha1) (repo : Repository) (c : Commit) :
  cacheLookup repo k = Some c ->
  cacheLookup (getCommit' id repo).2 k = Some c.
Proof.
  intros Hk. rewrite getCommit_lookup.
  destruct (cacheLookup repo id) as [c0|] eqn:Hid; [exact Hk|].
  destruct (getCommit' id repo).1; [|exact Hk].
  case_decide as Heq; [congruence | exact Hk].
Qed.

(** X7. The cache only grows: an entry that is in the cache before a call of
    [getCommit], for whatever identifier and with whatever outcome, is
    in it after the call, with the same commit. *)
Theorem getCommit_keeps_entries (id k : sha1) (repo : Repository) (c : Commit) :
  cacheLookup repo k = Some c ->
  cacheLookup (getCommit' id repo).2 k = Some c.
Proof.
  intros Hk. destruct (cacheLookup repo id) as [c0|] eqn:Hid.
  - now rewrite (getCommit_hit _ _ _ _ _ Hid).
  - pose proof (getCommit_miss GetRawObject parseCommitData id repo Hid) as H.
    destruct (getCommit' id repo) as [[c1|e] repo']; destruct H as (_ & _ & Hlk);
      cbn [snd]; rewrite Hlk; [|exact Hk].
    destruct (decide (id = k)) as [->|_]; [congruence | exact Hk].
Qed.

(** On a coherent cache, a commit that the store holds is in the cache
    after it has been asked for. *)
Lemma getCommit_caches (id : sha1) (repo : Repository) (c : Commit) :
  coherent repo -> fetchCommit' id = Ok c ->
  cacheLookup (getCommit' id repo).2 id = Some c.
Proof.
  intros Hco Hf. rewrite getCommit_lookup.
  destruct (getCommit_coherent GetRawObject parseCommitData id repo Hco)
    as [Hr _].
  rewrite Hr, Hf.
  destruct (cacheLookup repo id) as [c0|] eqn:Hc.
  - apply Hco in Hc. congruence.
  - now destruct (decide (id = id)).
Qed.

(** X8. On a handle whose cached commits bear the identifiers they are cached
    under (a new handle for one), the commit that [getCommit id] returns
    bears [id], whatever identifier the decoder left in it, and the cache
    stays so. *)
Theorem getCommit_stamps_id (id : sha1) (repo repo' : Repository) (c : Commit) :
  cacheKeyed repo ->
  getCommit' id repo = (Ok c, repo') ->
  Id c = id /\ cacheKeyed repo'.
Proof.
  intros Hkeyed Hget.
  assert (Hlk := getCommit_lookup id repo). rewrite Hget in Hlk. simpl in Hlk.
  destruct (cacheLookup repo id) as [c0|] eqn:Hc.
  - rewrite (getCommit_hit _ _ _ _ _ Hc) in Hget. injection Hget as <- <-.
    split; [now apply Hkeyed | exact Hkeyed].
  - pose proof (getCommit_miss GetRawObject parseCommitData id repo Hc) as H.
    rewrite Hget in H. destruct H as (Hf & _ & _).
    assert (Hid : Id c = id).
    { unfold fetchCommit in Hf.
      destruct (GetRawObject id) as [[data|?]|?]; try discriminate.
      destruct (parseCommitData data); [|discriminate]. now injection Hf as ->. }
    split; [exact Hid|]. intros k c'. rewrite Hlk.
    case_decide as Heq; [|apply Hkeyed]. intros [= <-]. congruence.
Qed.

Lemma fetchCount_app (id : sha1) (t1 t2 : list ioEvent) :
  fetchCount id (t1 ++ t2) = (fetchCount id t1 + fetchCount id t2)%nat.
Proof. unfold fetchCount. now rewrite List.filter_app, length_app. Qed.

Lemma fetchCount_missEvents (id k : sha1) :
  fetchCount id (missEvents GetRawObject k) = if decide (k = id) then 1%nat else 0%nat.
Proof.
  unfold missEvents, fetchCount.
  destruct (GetRawObject k) as [[?|?]|?]; cbn [List.filter isFetchOf];
    unfold Equal; case_decide as Heq.
  all: try (rewrite bool_decide_eq_true_2 by done; reflexivity).
  all: rewrite bool_decide_eq_false_2 by done; reflexivity.
Qed.

Lemma elem_of_snoc (id k : sha1) (done : list sha1) :
  id ∈ done ++ [k] <-> id ∈ done \/ id = k.
Proof. now rewrite elem_of_app, list_elem_of_singleton. Qed.

(** The handle after the identifiers of [done] have been asked for: the
    objects among them that decode are cached and were fetched once. *)
Lemma getCommit_memo_step (done : list sha1) (k : sha1) (repo : Repository) :
  (coherent repo
   /\ forall id c, fetchCommit' id = Ok c ->
        cacheLookup repo id = (if decide (id ∈ done) then Some c else None)
        /\ fetchCount id (ioTrace repo)
           = (if decide (id ∈ done) then 1%nat else 0%nat)) ->
  let repo' := (getCommit' k repo).2 in
  coherent repo'
  /\ forall id c, fetchCommit' id = Ok c ->
       cacheLookup repo' id = (if decide (id ∈ done ++ [k]) then Some c else None)
       /\ fetchCount id (ioTrace repo')
          = (if decide (id ∈ done ++ [k]) then 1%nat else 0%nat).
Proof.
  intros [Hco Hinv] repo'.
  destruct (getCommit_coherent GetRawObject parseCommitData k repo Hco)
    as [Hr Hco'].
  split; [exact Hco'|]. intros id c Hf. destruct (Hinv id c Hf) as [Hlk Hcnt].
  unfold repo'. rewrite getCommit_lookup, Hr.
  assert (Hio : ioTrace (getCommit' k repo).2
                = (match cacheLookup repo k with Some _ => [] | None => missEvents GetRawObject k end)
                  ++ ioTrace repo).
  { destruct (cacheLookup repo k) as [c0|] eqn:Hc.
    - now rewrite (getCommit_hit _ _ _ _ _ Hc).
    - pose proof (getCommit_miss GetRawObject parseCommitData k repo Hc) as H.
      destruct (getCommit' k repo) as [r repo1].
      destruct H as (_ & H & _). exact H. }
  rewrite Hio, fetchCount_app, Hcnt. clear Hio.
  destruct (decide (k = id)) as [->|Hne].
  - rewrite Hlk, Hf.
    destruct (decide (id ∈ done ++ [id])) as [_|Hn];
      [|exfalso; apply Hn, elem_of_snoc; now right].
    destruct (decide (id ∈ done)) as [Hin|Hnin].
    + split; reflexivity.
    + rewrite fetchCount_missEvents.
      destruct (decide (id = id)) as [_|Hn]; [|done]. split; reflexivity.
  - assert (Hzero : fetchCount id (missEvents GetRawObject k) = 0%nat).
    { rewrite fetchCount_missEvents. now destruct (decide (k = id)). }
    destruct (cacheLookup repo k) as [ck|]; [|destruct (fetchCommit' k)];
      rewrite ?Hzero, Hlk;
      destruct (decide (id ∈ done ++ [k])) as [H1|H1];
      destruct (decide (id ∈ done)) as [H2|H2];
      try (exfalso; rewrite elem_of_snoc in H1; intuition congruence);
      split; reflexivity.
Qed.

Lemma getCommitSeq_memo (ids done : list sha1) (repo : Repository) :
  (coherent repo
   /\ forall id c, fetchCommit' id = Ok c ->
        cacheLookup repo id = (if decide (id ∈ done) then Some c else None)
        /\ fetchCount id (ioTrace repo)
           = (if decide (id ∈ done) then 1%nat else 0%nat)) ->
  coherent (getCommitSeq' ids repo)
  /\ forall id c, fetchCommit' id = Ok c ->
       fetchCount id (ioTrace (getCommitSeq' ids repo))
       = (if decide (id ∈ done ++ ids) then 1%nat else 0%nat).
Proof.
  revert done repo. induction ids as [|k ids IH]; intros done repo Hinv.
  - rewrite app_nil_r. destruct Hinv as [Hco Hinv]. split; [exact Hco|].
    intros id c Hf. now destruct (Hinv id c Hf).
  - change (getCommitSeq' (k :: ids) repo)
      with (getCommitSeq' ids (getCommit' k repo).2).
    destruct (IH (done ++ [k]) _ (getCommit_memo_step done k repo Hinv))
      as [Hco Hcnt].
    split; [exact Hco|]. intros id c Hf. rewrite (Hcnt id c Hf).
    now rewrite <- app_assoc.
Qed.

(** X9. Memoization over any sequence of calls on a new handle: the next call
    answers as a fetch without a cache would, and an object that decodes
    has been fetched from the store once if it was asked for, however
    often, and not at all otherwise. *)
Theorem getCommit_memo_sequence (path : string) (ids : list sha1) (id : sha1) :
  let repo := getCommitSeq' ids (mkRepository path None []) in
  (getCommit' id repo).1 = fetchCommit' id
  /\ forall c, fetchCommit' id = Ok c ->
       fetchCount id (ioTrace repo) = (if decide (id ∈ ids) then 1%nat else 0%nat).
Proof.
  intros repo.
  destruct (getCommitSeq_memo ids [] (mkRepository path None [])) as [Hco Hcnt].
  { split; [apply cacheCoherent_fresh|]. intros k c _.
    destruct (decide (k ∈ [])) as [Hin|_]; [now apply elem_of_nil in Hin | done]. }
  split.
  - now apply getCommit_coherent.
  - intros c Hf. apply (Hcnt id c Hf).
Qed.

End StoreMore.

Lemma getCommit_keeps_entries_witness :
  let repo := (getCommit Examples.objects Examples.decode 2%N Examples.fresh).2 in
  cacheLookup (getCommit Examples.objects Examples.decode 6%N repo).2 2%N
  = Some Examples.commitB.
Proof.
  apply (getCommit_keeps_entries Examples.objects Examples.decode 6%N 2%N).
  reflexivity.
Defined.

Lemma getCommit_stamps_id_witness :
  Id Examples.commitA = 3%N
  /\ cacheKeyed (getCommit Examples.objects Examples.decode 3%N Examples.fresh).2.
Proof.
  apply (getCommit_stamps_id Examples.objects Examples.decode 3%N Examples.fresh).
  - intros k c H. discriminate.
  - reflexivity.
Defined.

(** The merge commit, asked for three times among other objects. *)
Lemma getCommit_memo_sequence_witness :
  fetchCount 1%N
    (ioTrace (getCommitSeq Examples.objects Examples.decode
                [1; 2; 1; 6; 1]%N Examples.fresh)) = 1%nat.
Proof.
  destruct (getCommit_memo_sequence Examples.objects Examples.decode
              "/srv/repo.git" [1; 2; 1; 6; 1]%N 1%N) as [_ H].
  exact (H Examples.commitM eq_refl).
Defined.

(** ** The commit of a branch *)

Section FacadeMore.

Variable IsSha1 : string -> bool.
Variable NewIdFromString : string -> result sha1.
Variable GetRawObject : sha1 -> result ReadCloser.
Variable parseCommitData : string -> result Commit.

(** X10. [GetCommitOfBranch] resolves the ref of the branch under
    refs/heads and hands the outcome to the commit store: whenever the
    resolution returns an identifier that [NewIdFromString] accepts, the
    call on a coherent cache returns what fetching and decoding the object
    of that identifier gives; and when that is a commit, asking for the
    branch again on the handle the call leaves returns the same commit and
    leaves the handle, its record of I/O included, as it is. *)
Theorem GetCommitOfBranch_fetches_once (fs : RefStore) (fuel : nat)
    (branchName s : string) (id : sha1) (repo : Repository) :
  getCommitIdOfRef IsSha1 fuel fs ("refs/heads/" +:+ branchName) = Some (Ok s) ->
  NewIdFromString s = Ok id ->
  cacheCoherent GetRawObject parseCommitData repo ->
  (GetCommitOfBranch IsSha1 NewIdFromString GetRawObject parseCommitData
     fuel fs branchName repo).1
  = Some (fetchCommit GetRawObject parseCommitData id)
  /\ forall c,
      fetchCommit GetRawObject parseCommitData id = Ok c ->
      GetCommitOfBranch IsSha1 NewIdFromString GetRawObject parseCommitData
        fuel fs branchName
        (GetCommitOfBranch IsSha1 NewIdFromString GetRawObject parseCommitData
           fuel fs branchName repo).2
      = (Some (Ok c),
         (GetCommitOfBranch IsSha1 NewIdFromString GetRawObject parseCommitData
            fuel fs branchName repo).2).
Proof.
  intros Hres Hid Hco.
  assert (Hrun : forall r0,
             GetCommitOfBranch IsSha1 NewIdFromString GetRawObject
               parseCommitData fuel fs branchName r0
             = (Some (getCommit GetRawObject parseCommitData id r0).1,
                (getCommit GetRawObject parseCommitData id r0).2)).
  { intros r0. unfold GetCommitOfBranch, GetCommitIdOfBranch, GetCommit.
    rewrite Hres, Hid.
    now destruct (getCommit GetRawObject parseCommitData id r0). }
  rewrite !Hrun. cbn [fst snd].
  destruct (getCommit_coherent GetRawObject parseCommitData id repo Hco)
    as [Hr _].
  split; [now rewrite Hr|].
  intros c Hc.
  pose proof (getCommit_caches GetRawObject parseCommitData id repo c Hco Hc)
    as Hcached.
  now rewrite (getCommit_hit GetRawObject parseCommitData id _ c Hcached).
Qed.

End FacadeMore.

(** The branch topic names commit B of the diamond; asked for a second
    time, the commit comes from the cache. *)
Lemma GetCommitOfBranch_fetches_once_witness :
  (GetCommitOfBranch Examples.hexSha1 Examples.newId Examples.objects
     Examples.decode 1 MoreExamples.branchB "topic" Examples.fresh).1
  = Some (Ok Examples.commitB)
  /\ ioTrace
       (GetCommitOfBranch Examples.hexSha1 Examples.newId Examples.objects
          Examples.decode 1 MoreExamples.branchB "topic"
          (GetCommitOfBranch Examples.hexSha1 Examples.newId Examples.objects
             Examples.decode 1 MoreExamples.branchB "topic" Examples.fresh).2).2
     = [EvParseCommitData 2%N; EvReadAll 2%N; EvGetRawObject 2%N].
Proof.
  destruct (GetCommitOfBranch_fetches_once Examples.hexSha1 Examples.newId
              Examples.objects Examples.decode MoreExamples.branchB 1
              "topic" MoreExamples.name2 2%N Examples.fresh)
    as [Hfirst Hagain].
  - reflexivity.
  - reflexivity.
  - apply cacheCoherent_fresh.
  - split; [exact Hfirst|].
    rewrite (Hagain Examples.commitB eq_refl). reflexivity.
Defined.

(** ** The first-parent range *)

Section BetweenMore.

Variable GetRawObject : sha1 -> result ReadCloser.
Variable parseCommitData : string -> result Commit.

Local Notation "'fetchCommit''" := (fetchCommit GetRawObject parseCommitData).
Local Notation "'coherent'" := (cacheCoherent GetRawObject parseCommitData).

(** The chain from [cur]: [before] is not on it, it is linked by first
    parents, it starts at [cur] unless [cur] is [before], and it ends at a
    commit without a parent or at a child of [before]. *)
Lemma specCommitsBetween_shape (fuel : nat) (before cur : Commit)
    (l : list Commit) :
  specCommitsBetween GetRawObject parseCommitData fuel before cur = Some (Ok l) ->
  Forall (fun c => Id c <> Id before) l
  /\ firstParentLinked l
  /\ (if Equal (Id cur) (Id before) then l = [] else head l = Some cur)
  /\ (forall c, last l = Some c ->
                parents c = [] \/ parents c !! 0%nat = Some (Id before)).
Proof.
  revert cur l. induction fuel as [|fuel IH]; intros cur l; [discriminate|].
  cbn [specCommitsBetween].
  destruct (Equal (Id cur) (Id before)) eqn:Heq.
  { intros [= <-]. split; [constructor|]. split; [exact I|].
    split; [reflexivity | discriminate]. }
  assert (Hne : Id cur <> Id before).
  { intros H. unfold Equal in Heq. now rewrite bool_decide_eq_true_2 in Heq. }
  destruct (parents cur) as [|p ps] eqn:Hps.
  { intros [= <-]. split; [now repeat constructor|]. split; [now split|].
    split; [reflexivity|]. intros c [= <-]. now left. }
  destruct (fetchCommit' p) as [c'|e] eqn:Hf; [|discriminate].
  destruct (specCommitsBetween _ _ fuel before c') as [[l'|e]|] eqn:Hrec;
    try discriminate.
  intros [= <-]. destruct (IH c' l' Hrec) as (Hall & Hlinked & Hhead & Hlast).
  assert (Hid : Id c' = p).
  { unfold fetchCommit in Hf.
    destruct (GetRawObject p) as [[data|?]|?]; try discriminate.
    destruct (parseCommitData data); [|discriminate]. now injection Hf as <-. }
  split; [now constructor|]. split; [|split; [reflexivity|]].
  - cbn [firstParentLinked]. split; [|exact Hlinked].
    destruct l' as [|c1 l']; [exact I|].
    destruct (Equal (Id c') (Id before)); [discriminate|].
    injection Hhead as ->. now rewrite Hps, Hid.
  - intros c Hc. destruct l' as [|c1 l'].
    + injection Hc as <-. right.
      destruct (Equal (Id c') (Id before)) eqn:Hc'; [|discriminate].
      unfold Equal in Hc'. apply bool_decide_eq_true_1 in Hc'.
      rewrite Hps. cbn. congruence.
    + apply Hlast. exact Hc.
Qed.

(** X11. [CommitsBetween] gives the range that its comment writes "(]": the
    list holds no commit with the identifier of [before]; it begins with
    [last] when [last] has a parent and is not [before]; each of its
    commits has the next one as its first parent; and its end is a commit
    without a parent or with [before] as its first parent. *)
Theorem CommitsBetween_half_open (fuel : nat) (last before : Commit)
    (repo repo' : Repository) (l : list Commit) :
  coherent repo ->
  CommitsBetween GetRawObject parseCommitData fuel (Some last) before repo
  = (Some (Ok l), repo') ->
  Forall (fun c => Id c <> Id before) l
  /\ firstParentLinked l
  /\ (ParentCount last <> 0%nat -> Id last <> Id before -> head l = Some last)
  /\ (forall front c, l = front ++ [c] ->
                      parents c = [] \/ parents c !! 0%nat = Some (Id before)).
Proof.
  intros Hco Hrun.
  destruct (ParentCount last) as [|n] eqn:Hn.
  - unfold CommitsBetween in Hrun. rewrite Hn in Hrun. injection Hrun as <- _.
    split; [constructor|]. split; [exact I|]. split; [done|].
    intros front c Hl. now destruct front.
  - assert (Hspec : specCommitsBetween GetRawObject parseCommitData fuel
                      before last = Some (Ok l)).
    { pose proof (commitsBetweenLoop_spec GetRawObject parseCommitData fuel
                    before last [] repo Hco) as Hloop.
      unfold CommitsBetween in Hrun. rewrite Hn in Hrun. cbn [Nat.eqb] in Hrun.
      rewrite Hrun in Hloop. cbn [fst] in Hloop.
      destruct (specCommitsBetween _ _ fuel before last) as [[chain|e]|];
        [|discriminate..].
      now injection Hloop as ->. }
    destruct (specCommitsBetween_shape fuel before last l Hspec)
      as (Hall & Hlinked & Hhead & Hlast).
    split; [exact Hall|]. split; [exact Hlinked|]. split.
    2: { intros front c ->. apply Hlast, last_snoc. }
    intros _ Hne. destruct (Equal (Id last) (Id before)) eqn:Heq; [|exact Hhead].
    unfold Equal in Heq. now apply bool_decide_eq_true_1 in Heq.
Qed.

End BetweenMore.

(** From the merge commit of the diamond back to the root, which is on the
    first-parent chain: M and B, without the root. *)
Lemma CommitsBetween_half_open_witness :
  Forall (fun c => Id c <> Id Examples.commitR)
    [Examples.commitM; Examples.commitB]
  /\ head [Examples.commitM; Examples.commitB] = Some Examples.commitM.
Proof.
  destruct (CommitsBetween_half_open Examples.objects Examples.decode 5
              Examples.commitM Examples.commitR Examples.fresh
              (CommitsBetween Examples.objects Examples.decode 5
                 (Some Examples.commitM) Examples.commitR Examples.fresh).2
              [Examples.commitM; Examples.commitB])
    as (Hall & _ & Hhead & _).
  - apply cacheCoherent_fresh.
  - reflexivity.
  - split; [exact Hall|]. apply Hhead; discriminate.
Defined.

(** ** The merge-list builder *)

Lemma scanForSlot_same_cells (c : Commit) (before after b' a' : list Element)
    (in_ in' : Element) :
  scanForSlot c before in_ after = Some (b', in', a') ->
  b' ++ in' :: a' = before ++ in_ :: after.
Proof.
  revert before in_. induction after as [|next after IH]; intros before in_;
    cbn [scanForSlot]; destruct (Equal _ _); try discriminate.
  - now intros [= <- <- <-].
  - destruct (whenOf in_ =? When (Committer c))%Z; [now intros [= <- <- <-]|].
    destruct ((whenOf in_ >? When (Committer c))%Z
              && (whenOf next <? When (Committer c))%Z);
      [now intros [= <- <- <-]|].
    intros H. apply IH in H. now rewrite <- app_assoc in H.
Qed.

Lemma scanForSlot_found (c : Commit) (before after : list Element)
    (in_ : Element) :
  scanForSlot c before in_ after = None ->
  exists e, e ∈ in_ :: after /\ Id (Value e) = Id c.
Proof.
  revert before in_. induction after as [|next after IH]; intros before in_;
    cbn [scanForSlot]; destruct (Equal _ _) eqn:Heq; try discriminate;
    try (intros _; exists in_; split; [left|];
         unfold Equal in Heq; now apply bool_decide_eq_true_1 in Heq).
  destruct (whenOf in_ =? When (Committer c))%Z; [discriminate|].
  destruct ((whenOf in_ >? When (Committer c))%Z
            && (whenOf next <? When (Committer c))%Z); [discriminate|].
  intros H. apply IH in H as (e & He & Hid). exists e. split; [now right|done].
Qed.

(** The loop over the parents, as a rule: [L done] holds of the list and
    the handle once the parents of [done] have been gone through, [E] of
    what a failed call leaves. *)
Lemma commitsBeforeParents_rule
    (rec : List -> sha1 -> Repository -> option cbState)
    (L : list sha1 -> List -> Repository -> Prop) (E : cbState -> Prop)
    (ids : list sha1) :
  (forall done id rest l repo st,
      ids = done ++ id :: rest -> L done l repo -> rec l id repo = Some st ->
      match cbErr st with
      | None => L (done ++ [id]) (cbList st) (cbRepo st)
      | Some _ => E st
      end) ->
  forall l repo st,
    L [] l repo -> commitsBeforeParents rec ids l repo = Some st ->
    match cbErr st with
    | None => L ids (cbList st) (cbRepo st)
    | Some _ => E st
    end.
Proof.
  intros Hstep.
  assert (Hgen : forall todo done l repo st,
             ids = done ++ todo -> L done l repo ->
             commitsBeforeParents rec todo l repo = Some st ->
             match cbErr st with
             | None => L ids (cbList st) (cbRepo st)
             | Some _ => E st
             end).
  { induction todo as [|id todo IH]; intros done l repo st Hids HL;
      cbn [commitsBeforeParents].
    - intros [= <-]. cbn. rewrite app_nil_r in Hids. now subst.
    - destruct (rec l id repo) as [st1|] eqn:Hst1; [|discriminate].
      pose proof (Hstep done id todo l repo st1 Hids HL Hst1) as H1.
      destruct (cbErr st1) eqn:Herr.
      + intros [= <-]. now rewrite Herr.
      + apply (IH (done ++ [id])); [now rewrite <- app_assoc | exact H1]. }
  intros l repo st. now apply (Hgen ids []).
Qed.

Lemma head_map {A B : Type} (f : A -> B) (l : list A) :
  head (f <$> l) = f <$> head l.
Proof. now destruct l. Qed.

Lemma grows_refl (l : List) : grows l l.
Proof. split; [reflexivity | done]. Qed.

Lemma grows_trans (l1 l2 l3 : List) : grows l1 l2 -> grows l2 l3 -> grows l1 l3.
Proof.
  intros [Hsub1 Hhd1] [Hsub2 Hhd2]. split; [now transitivity (elements l2)|].
  intros Hne. specialize (Hhd1 Hne). rewrite <- Hhd1. apply Hhd2.
  intros Hnil. rewrite Hnil in Hhd1. destruct (elements l1); [done|discriminate].
Qed.

(** A cell put into a list, not before its first cell. *)
Lemma grows_insert (l : List) (pre post : list Element) (e : Element) (n : nat) :
  elements l = pre ++ post ->
  (elements l <> [] -> pre <> []) ->
  grows l (mkList (pre ++ e :: post) n).
Proof.
  intros Hel Hpre. split; cbn [elements].
  - rewrite Hel. apply sublist_app; [reflexivity|]. now apply sublist_cons.
  - intros Hne. specialize (Hpre Hne). rewrite Hel. now destruct pre.
Qed.

Section MergeListMore.

Variable GetRawObject : sha1 -> result ReadCloser.
Variable parseCommitData : string -> result Commit.

Local Notation "'fetchCommit''" := (fetchCommit GetRawObject parseCommitData).
Local Notation "'coherent'" := (cacheCoherent GetRawObject parseCommitData).
Local Notation "'commitsBefore''" := (commitsBefore GetRawObject parseCommitData).
Local Notation "'reachable''" := (reachable GetRawObject parseCommitData).

(** One call of [commitsBefore] on a coherent cache, by cases: the commit
    cannot be fetched; it is found by the scan; or it is put into the list,
    at the end when there is no anchor and behind some cell otherwise, and
    its parents are gone through. *)
Lemma commitsBefore_cases (fuel : nat) (l : List) (parent : option nat)
    (id : sha1) (repo : Repository) (st : cbState) :
  coherent repo ->
  commitsBefore' (S fuel) l parent id repo = Some st ->
  exists repo1,
    repo1 = (getCommit GetRawObject parseCommitData id repo).2
    /\ coherent repo1
    /\ match fetchCommit' id with
       | Err err => st = mkCbState (Some err) l repo1
       | Ok commit =>
           ((exists e, e ∈ elements l /\ Id (Value e) = Id commit)
            /\ parent <> None /\ st = mkCbState None l repo1)
           \/ exists pre post,
               elements l = pre ++ post
               /\ (parent = None -> post = [])
               /\ (parent <> None -> pre <> [])
               /\ commitsBeforeParents
                    (fun l' id' repo' =>
                       commitsBefore' fuel l'
                         (if (1 <? ParentCount commit)%nat
                          then Some (allocated l) else parent) id' repo')
                    (parents commit)
                    (mkList (pre ++ mkElement (allocated l) commit :: post)
                       (S (allocated l)))
                    repo1 = Some st
       end.
Proof.
  intros Hco Hrun. cbn [commitsBefore] in Hrun.
  destruct (getCommit_coherent GetRawObject parseCommitData id repo Hco)
    as [Hr Hco1].
  destruct (getCommit GetRawObject parseCommitData id repo) as [r repo1].
  simpl in Hr, Hco1. subst r. exists repo1. split; [reflexivity|].
  split; [exact Hco1|]. revert Hrun.
  destruct (fetchCommit' id) as [commit|err]; [|now intros [= <-]].
  destruct parent as [a|].
  - destruct (locate a [] (elements l)) as [[[before in_] after]|] eqn:Hloc;
      [|discriminate].
    apply locate_spec in Hloc as [Hel _]. simpl in Hel.
    destruct (scanForSlot commit before in_ after) as [[[b' in'] a']|] eqn:Hscan.
    + apply scanForSlot_same_cells in Hscan. cbn [InsertAfter elemId].
      intros Hrun. right. exists (b' ++ [in']), a'.
      rewrite <- !app_assoc. cbn [app].
      split; [congruence|]. split; [discriminate|]. split; [|exact Hrun].
      intros _ H. now destruct b'.
    + apply scanForSlot_found in Hscan as (e & He & Hid).
      intros [= <-]. left. split; [|done]. exists e. split; [|done].
      rewrite Hel. apply elem_of_app. now right.
  - cbn [PushBack elemId]. intros Hrun. right. exists (elements l), [].
    split; [now rewrite app_nil_r|]. split; [done|]. split; [done|exact Hrun].
Qed.

Lemma cases_insert_grows (l : List) (parent : option nat)
    (pre post : list Element) (e : Element) (n : nat) :
  elements l = pre ++ post ->
  (parent = None -> post = []) -> (parent <> None -> pre <> []) ->
  grows l (mkList (pre ++ e :: post) n).
Proof.
  intros Hel Hnone Hsome. apply grows_insert; [exact Hel|].
  intros Hne. destruct parent as [a|]; [now apply Hsome|].
  rewrite (Hnone eq_refl), app_nil_r in Hel. congruence.
Qed.

Lemma commitsBefore_grows (fuel : nat) :
  forall l parent id repo st,
    coherent repo ->
    commitsBefore' fuel l parent id repo = Some st ->
    grows l (cbList st) /\ coherent (cbRepo st).
Proof.
  induction fuel as [|fuel IH]; intros l parent id repo st Hco Hrun;
    [discriminate|].
  destruct (commitsBefore_cases fuel l parent id repo st Hco Hrun)
    as (repo1 & _ & Hco1 & Hcases).
  destruct (fetchCommit' id) as [commit|err].
  2: { subst st. split; [apply grows_refl | exact Hco1]. }
  destruct Hcases as [(_ & _ & ->)|(pre & post & Hel & Hnone & Hsome & Hloop)].
  { split; [apply grows_refl | exact Hco1]. }
  pose proof (cases_insert_grows l parent pre post
                (mkElement (allocated l) commit) (S (allocated l))
                Hel Hnone Hsome) as Hg1.
  set (l1 := mkList (pre ++ mkElement (allocated l) commit :: post)
               (S (allocated l))) in *.
  apply (commitsBeforeParents_rule _
           (fun _ l' repo' => grows l1 l' /\ coherent repo')
           (fun st' => grows l1 (cbList st') /\ coherent (cbRepo st')))
    in Hloop.
  - destruct (cbErr st); destruct Hloop as [Hg Hco'];
      (split; [now apply (grows_trans l l1) | exact Hco']).
  - intros done p rest l' repo' st' _ [Hg Hco'] Hst'.
    destruct (IH _ _ _ _ _ Hco' Hst') as [Hg' Hco''].
    destruct (cbErr st'); (split; [now apply (grows_trans l1 l') | exact Hco'']).
  - split; [apply grows_refl | exact Hco1].
Qed.

(** X12. A call of [commitsBefore] only puts cells into the list: the cells that
    were in it are still in it afterwards, in the order they were in, and
    the cell that was first is still first. *)
Theorem commitsBefore_only_inserts (fuel : nat) (l : List)
    (parent : option nat) (id : sha1) (repo : Repository) (st : cbState) :
  coherent repo ->
  commitsBefore' fuel l parent id repo = Some st ->
  listValues l `sublist_of` listValues (cbList st)
  /\ (listValues l <> [] ->
      head (listValues (cbList st)) = head (listValues l)).
Proof.
  intros Hco Hrun.
  destruct (commitsBefore_grows fuel l parent id repo st Hco Hrun)
    as [[Hsub Hhd] _].
  unfold listValues. split; [now apply fmap_sublist|].
  intros Hne. rewrite !head_map, Hhd; [done|].
  intros Hnil. now rewrite Hnil in Hne.
Qed.



Local Notation "'valuesFetched''" := (valuesFetched GetRawObject parseCommitData).

Lemma reachable_trans (a b c : Commit) :
  reachable' a b -> reachable' b c -> reachable' a c.
Proof.
  intros Hab. induction 1 as [|x y p _ IH Hp Hf]; [exact Hab|].
  now apply (reachable_parent _ _ _ x y p).
Qed.

Lemma grows_elem (l l' : List) (e : Element) :
  grows l l' -> e ∈ elements l -> e ∈ elements l'.
Proof. intros [Hsub _]. now apply sublist_subseteq. Qed.

Lemma grows_id (l l' : List) (k : sha1) :
  grows l l' -> k ∈ (Id <$> listValues l) -> k ∈ (Id <$> listValues l').
Proof.
  intros Hg. unfold listValues. rewrite <- !list_fmap_compose.
  intros (e & -> & He)%list_elem_of_fmap.
  apply list_elem_of_fmap. exists e. split; [done | now apply (grows_elem l)].
Qed.

Lemma elem_id (l : List) (e : Element) :
  e ∈ elements l -> Id (Value e) ∈ (Id <$> listValues l).
Proof.
  intros He. unfold listValues. rewrite <- list_fmap_compose.
  apply list_elem_of_fmap. now exists e.
Qed.

Lemma id_elem (l : List) (k : sha1) :
  k ∈ (Id <$> listValues l) -> exists e, e ∈ elements l /\ Id (Value e) = k.
Proof.
  unfold listValues. rewrite <- list_fmap_compose.
  intros (e & -> & He)%list_elem_of_fmap. now exists e.
Qed.

(** What a call of [commitsBefore] adds is of the ancestry of its commit,
    and when it ends without an error its commit is in the list with all
    that the list needs to hold the parents of its commits. *)
Lemma commitsBefore_ancestry (fuel : nat) :
  forall l parent id repo st (open : sha1 -> Prop),
    coherent repo -> valuesFetched' l ->
    closedExcept open l ->
    commitsBefore' fuel l parent id repo = Some st ->
    valuesFetched' (cbList st)
    /\ (forall e, e ∈ elements (cbList st) ->
                  e ∈ elements l
                  \/ exists c0, fetchCommit' id = Ok c0 /\ reachable' c0 (Value e))
    /\ (cbErr st = None ->
        id ∈ (Id <$> listValues (cbList st)) /\ closedExcept open (cbList st)).
Proof.
  induction fuel as [|fuel IH]; intros l parent id repo st open Hco Hvf Hcl Hrun;
    [discriminate|].
  destruct (commitsBefore_cases fuel l parent id repo st Hco Hrun)
    as (repo1 & _ & Hco1 & Hcases).
  destruct (fetchCommit' id) as [commit|err] eqn:Hf.
  2: { subst st. split; [exact Hvf|]. split; [now left | discriminate]. }
  assert (Hid : Id commit = id) by now apply (fetchCommit_Id _ _ _ _ Hf).
  destruct Hcases as [((e & He & Hide) & _ & ->)
                     |(pre & post & Hel & Hnone & Hsome & Hloop)].
  { split; [exact Hvf|]. split; [now left|]. intros _. split; [|exact Hcl].
    rewrite <- Hid, <- Hide. now apply elem_id. }
  pose proof (cases_insert_grows l parent pre post
                (mkElement (allocated l) commit) (S (allocated l))
                Hel Hnone Hsome) as Hg1.
  set (e := mkElement (allocated l) commit) in *.
  set (l1 := mkList (pre ++ e :: post) (S (allocated l))) in *.
  assert (Hmem : forall x, x ∈ elements l1 <-> x = e \/ x ∈ elements l).
  { intros x. unfold l1. cbn [elements].
    rewrite Hel, !elem_of_app, elem_of_cons. tauto. }
  assert (Hvf1 : valuesFetched' l1).
  { intros x [->|Hx]%Hmem; [|now apply Hvf]. cbn [e Value]. now rewrite Hid. }
  set (open1 := fun k => open k \/ k = id).
  assert (Hcl1 : closedExcept open1 l1).
  { intros x [->|Hx]%Hmem Hopen p Hp.
    - exfalso. apply Hopen. right. exact Hid.
    - apply (grows_id l l1 p Hg1). apply (Hcl x Hx); [|exact Hp].
      intros H. apply Hopen. now left. }
  apply (commitsBeforeParents_rule _
           (fun done l' repo' =>
              coherent repo' /\ valuesFetched' l' /\ grows l1 l'
              /\ (forall x, x ∈ elements l' ->
                             x ∈ elements l1 \/ reachable' commit (Value x))
              /\ closedExcept open1 l'
              /\ forall q, q ∈ done -> q ∈ (Id <$> listValues l'))
           (fun st' =>
              valuesFetched' (cbList st')
              /\ forall x, x ∈ elements (cbList st') ->
                           x ∈ elements l1 \/ reachable' commit (Value x)))
    in Hloop.
  - assert (Hsound : forall x,
               x ∈ elements l1 \/ reachable' commit (Value x) ->
               x ∈ elements l
               \/ exists c0, Ok commit = Ok c0 /\ reachable' c0 (Value x)).
    { intros x [[->|Hx]%Hmem|Hx]; [right|now left|right];
        exists commit; (split; [done|]); [apply reachable_start | exact Hx]. }
    destruct (cbErr st) as [err|].
    + destruct Hloop as [Hvf' Hs']. split; [exact Hvf'|]. split; [|discriminate].
      intros x Hx. apply Hsound, Hs', Hx.
    + destruct Hloop as (_ & Hvf' & Hg' & Hs' & Hcl' & Hdone).
      split; [exact Hvf'|]. split; [intros x Hx; apply Hsound, Hs', Hx|].
      intros _. split.
      * rewrite <- Hid. apply (elem_id (cbList st) e), (grows_elem l1); [done|].
        apply Hmem. now left.
      * intros x Hx Hopen p Hp.
        destruct (decide (Id (Value x) = id)) as [Hx_id|Hne].
        -- apply Hdone. specialize (Hvf' x Hx). rewrite Hx_id, Hf in Hvf'.
           injection Hvf' as ->. exact Hp.
        -- apply (Hcl' x Hx); [|exact Hp]. intros [H|H]; [now apply Hopen | done].
  - intros done p rest l' repo' st' Hids (Hco' & Hvf' & Hg' & Hs' & Hcl' & Hdone) Hst'.
    destruct (IH _ _ _ _ _ open1 Hco' Hvf' Hcl' Hst') as (Hvf2 & Hs2 & Hok2).
    destruct (commitsBefore_grows _ _ _ _ _ _ Hco' Hst') as [Hg2 Hco2].
    assert (Hp : p ∈ parents commit).
    { rewrite Hids. apply elem_of_app. right. left. }
    assert (Hs3 : forall x, x ∈ elements (cbList st') ->
                            x ∈ elements l1 \/ reachable' commit (Value x)).
    { intros x Hx. destruct (Hs2 x Hx) as [Hx'|(c0 & Hc0 & Hr)];
        [now apply Hs'|]. right.
      apply (reachable_trans commit c0); [|exact Hr].
      apply (reachable_parent _ _ _ commit c0 p);
        [apply reachable_start | exact Hp | exact Hc0]. }
    destruct (cbErr st') as [err|]; [now split|].
    destruct (Hok2 eq_refl) as [Hpin Hcl2].
    split; [exact Hco2|]. split; [exact Hvf2|].
    split; [now apply (grows_trans l1 l')|]. split; [exact Hs3|].
    split; [exact Hcl2|].
    intros q [Hq| ->%list_elem_of_singleton]%elem_of_app; [|exact Hpin].
    apply (grows_id l' _ q Hg2), Hdone, Hq.
  - split; [exact Hco1|]. split; [exact Hvf1|]. split; [apply grows_refl|].
    split; [now left|]. split; [exact Hcl1|]. intros q Hq.
    now apply elem_of_nil in Hq.
Qed.

(** X14. The list of [getCommitsBefore] holds commits of the ancestry of the
    start commit only, also when an error cuts the building short; and
    when there is no error it holds every commit of the ancestry. *)
Theorem getCommitsBefore_is_ancestry (fuel : nat) (id : sha1)
    (repo : Repository) (st : cbState) (c0 : Commit) :
  coherent repo ->
  fetchCommit' id = Ok c0 ->
  getCommitsBefore GetRawObject parseCommitData fuel id repo = Some st ->
  (forall c, c ∈ listValues (cbList st) -> reachable' c0 c)
  /\ (cbErr st = None ->
      forall c, reachable' c0 c -> c ∈ listValues (cbList st)).
Proof.
  intros Hco Hf Hrun. unfold getCommitsBefore in Hrun.
  destruct (commitsBefore_ancestry fuel New None id repo st (fun _ => False) Hco)
    as (Hvf & Hsound & Hok); [| |exact Hrun|].
  { intros e He. now apply elem_of_nil in He. }
  { intros e He. now apply elem_of_nil in He. }
  split.
  - intros c (e & -> & He)%list_elem_of_fmap.
    destruct (Hsound e He) as [Hnil|(c1 & Hc1 & Hr)];
      [now apply elem_of_nil in Hnil|]. congruence.
  - intros Herr. destruct (Hok Herr) as [Hstart Hclosed].
    assert (Hin : forall k c, k ∈ (Id <$> listValues (cbList st)) ->
                              fetchCommit' k = Ok c -> c ∈ listValues (cbList st)).
    { intros k c (e & He & Hk)%id_elem Hc. specialize (Hvf e He).
      rewrite Hk, Hc in Hvf. injection Hvf as ->.
      apply list_elem_of_fmap. now exists e. }
    induction 1 as [|c c' p _ IHc Hp Hc'].
    + now apply (Hin id).
    + apply (Hin p); [|exact Hc'].
      apply list_elem_of_fmap in IHc as (e & -> & He).
      apply (Hclosed e He); [tauto | exact Hp].
Qed.


Variable c0 : Commit.

Hypothesis Hline : forall c, reachable' c0 c -> (ParentCount c <= 1)%nat.



End MergeListMore.

Lemma lateState_run :
  getCommitsBefore Examples.objects Examples.decode 5 7%N Examples.fresh
  = Some MoreExamples.lateState.
Proof. vm_compute. reflexivity. Qed.

Lemma lateState_coherent :
  cacheCoherent Examples.objects Examples.decode (cbRepo MoreExamples.lateState).
Proof.
  apply (commitsBefore_grows Examples.objects Examples.decode 5 New None 7%N
           Examples.fresh MoreExamples.lateState
           (cacheCoherent_fresh _ _ _ _) lateState_run).
Qed.

(** The two commits of the first list are still there, in their order and
    at the head, after the diamond has been added. *)
Lemma commitsBefore_only_inserts_witness :
  [Examples.commitLate; Examples.commitEarly]
    `sublist_of` listValues (cbList MoreExamples.thenDiamond)
  /\ head (listValues (cbList MoreExamples.thenDiamond)) = Some Examples.commitLate.
Proof.
  destruct (commitsBefore_only_inserts Examples.objects Examples.decode 5
              (cbList MoreExamples.lateState) None 1%N
              (cbRepo MoreExamples.lateState) MoreExamples.thenDiamond
              lateState_coherent) as [Hsub Hhd].
  - vm_compute. reflexivity.
  - split; [exact Hsub|]. apply Hhd. discriminate.
Defined.


(** The root of the diamond is in the list of the merge commit, hence of
    its ancestry. *)
Lemma getCommitsBefore_is_ancestry_witness :
  reachable Examples.objects Examples.decode Examples.commitM Examples.commitR.
Proof.
  destruct (getCommitsBefore_is_ancestry Examples.objects Examples.decode 5 1%N
              Examples.fresh MoreExamples.diamondState Examples.commitM
              (cacheCoherent_fresh _ _ _ _) eq_refl) as [Hsound _].
  - vm_compute. reflexivity.
  - apply Hsound. vm_compute. repeat constructor.
Defined.



(** ** Every commit once *)

Lemma decreasing_snoc (ts : list Z) (t : Z) :
  decreasing ts -> (forall x, x ∈ ts -> (t < x)%Z) -> decreasing (ts ++ [t]).
Proof.
  induction ts as [|x ts IH]; intros Hs Hall; [simpl; tauto|].
  destruct Hs as [Hx Hs]. cbn [app decreasing]. split.
  - destruct ts as [|y ts]; simpl; [apply Hall; left | exact Hx].
  - apply IH; [exact Hs | intros y Hy; apply Hall; now right].
Qed.

Lemma decreasing_insert (pre post : list Z) (x t : Z) :
  decreasing (pre ++ x :: post) -> (t < x)%Z ->
  match post with y :: _ => (y < t)%Z | [] => True end ->
  decreasing (pre ++ x :: t :: post).
Proof.
  intros Hs Hx Hpost. induction pre as [|z pre IH].
  - simpl in *. destruct Hs as [_ Hs]. repeat split; [done| |done].
    destruct post; done.
  - destruct Hs as [Hz Hs]. cbn [app decreasing]. split; [|now apply IH].
    destruct pre; exact Hz.
Qed.

Lemma decreasing_suffix (pre post : list Z) :
  decreasing (pre ++ post) -> decreasing post.
Proof.
  induction pre as [|z pre IH]; [done|]. intros [_ Hs]. now apply IH.
Qed.

Lemma decreasing_below (t : Z) (ts : list Z) :
  decreasing (t :: ts) -> forall x, x ∈ ts -> (x < t)%Z.
Proof.
  revert t. induction ts as [|u ts IH]; intros t [Hu Hs] x Hx.
  - now apply elem_of_nil in Hx.
  - apply elem_of_cons in Hx as [->|Hx]; [exact Hu|].
    specialize (IH u Hs x Hx). lia.
Qed.

Lemma decreasing_NoDup (ts : list Z) : decreasing ts -> NoDup ts.
Proof.
  induction ts as [|t ts IH]; intros Hs; [constructor|].
  constructor; [|apply IH; now destruct Hs].
  intros Hin. pose proof (decreasing_below t ts Hs t Hin). lia.
Qed.

Lemma anchorStrict_extends (a : nat) (l l' : List) (t : Z) :
  idsBelow l -> extends l l' ->
  anchorStrict (Some a) l t -> anchorStrict (Some a) l' t.
Proof.
  intros Hb (_ & Hin & Hold) [[e [He Ha]] Hle]. split.
  - exists e. auto.
  - intros x Hx Hxa. apply Hle; [|done]. apply Hold; [done|].
    rewrite Hxa, <- Ha. now apply Hb.
Qed.

Lemma anchorStrict_lt (pr : option nat) (l : List) (t t' : Z) :
  (t' <= t)%Z -> anchorStrict pr l t -> anchorStrict pr l t'.
Proof.
  intros Hle. destruct pr as [a|]; simpl.
  - intros [Hex Hall]. split; [done|]. intros e He Ha.
    specialize (Hall e He Ha). lia.
  - intros Hall e He. specialize (Hall e He). lia.
Qed.

Lemma anchorOk_strict (a : nat) (l : List) (t t' : Z) :
  (t' < t)%Z -> anchorOk (Some a) l t -> anchorStrict (Some a) l t'.
Proof.
  intros Hlt [Hex Hall]. split; [done|]. intros e He Ha.
  specialize (Hall e He Ha). lia.
Qed.

(** Where the scan breaks in a list dated in order, every commit at a date
    of its own: at a cell dated after the commit whose successor, if any,
    is dated before it. *)
Lemma scanForSlot_strict (c : Commit) (before after b' a' : list Element)
    (in_ in' : Element) :
  decreasing (whenOf <$> in_ :: after) ->
  (forall x, x ∈ in_ :: after -> whenOf x = commitTime c ->
             Id (Value x) = Id c) ->
  (commitTime c < whenOf in_)%Z \/ Id (Value in_) = Id c ->
  scanForSlot c before in_ after = Some (b', in', a') ->
  b' ++ in' :: a' = before ++ in_ :: after
  /\ (commitTime c < whenOf in')%Z
  /\ match a' with y :: _ => (whenOf y < commitTime c)%Z | [] => True end.
Proof.
  revert before in_. induction after as [|next after IH];
    intros before in_ Hs Hinj Hin; cbn [scanForSlot];
    destruct (Equal (Id (Value in_)) (Id c)) eqn:Heq; try discriminate.
  all: assert (Hlt : (commitTime c < whenOf in_)%Z)
      by (destruct Hin as [H|H]; [exact H|];
          unfold Equal in Heq; now rewrite bool_decide_eq_true_2 in Heq).
  - intros [= <- <- <-]. done.
  - fold (commitTime c). destruct Hs as [Hnext Hs]. simpl in Hnext.
    destruct (whenOf in_ =? commitTime c)%Z eqn:Hz;
      [apply Z.eqb_eq in Hz; lia|].
    destruct ((whenOf in_ >? commitTime c)%Z && (whenOf next <? commitTime c)%Z)
      eqn:Hslot.
    { intros [= <- <- <-]. apply andb_true_iff in Hslot as [_ Hn].
      apply Z.ltb_lt in Hn. done. }
    intros H. apply IH in H as (Happ & Hle & Ha'); [| done | |].
    + rewrite <- app_assoc in Happ. done.
    + intros x Hx. apply Hinj. now right.
    + apply andb_false_iff in Hslot as [Hgt|Hn].
      * rewrite Z.gtb_ltb in Hgt. apply Z.ltb_ge in Hgt. lia.
      * apply Z.ltb_ge in Hn.
        destruct (decide (whenOf next = commitTime c)) as [He|Hne].
        -- right. apply Hinj; [right; left | exact He].
        -- left. lia.
Qed.

Section ExactlyOnce.

Variable GetRawObject : sha1 -> result ReadCloser.
Variable parseCommitData : string -> result Commit.

Local Notation "'fetchCommit''" := (fetchCommit GetRawObject parseCommitData).
Local Notation "'coherent'" := (cacheCoherent GetRawObject parseCommitData).
Local Notation "'commitsBefore''" := (commitsBefore GetRawObject parseCommitData).
Local Notation "'valuesFetched''" := (valuesFetched GetRawObject parseCommitData).
Local Notation "'cbPostStrict''" := (cbPostStrict GetRawObject parseCommitData).

Hypothesis Hstrict : datesStrict GetRawObject parseCommitData.
Hypothesis Hdistinct : datesDistinct GetRawObject parseCommitData.

Lemma valuesFetched_insert (l : List) (pre post : list Element) (c : Commit)
    (n m : nat) :
  elements l = pre ++ post -> valuesFetched' l ->
  fetchCommit' (Id c) = Ok c ->
  valuesFetched' (mkList (pre ++ mkElement n c :: post) m).
Proof.
  intros Hel Hvf Hc x. cbn [elements].
  rewrite elem_of_app, elem_of_cons. intros [Hx|[->|Hx]]; [|exact Hc|];
    apply Hvf; rewrite Hel, elem_of_app; tauto.
Qed.

Lemma cbPostStrict_same (l : List) (repo : Repository) (err : option error) :
  coherent repo -> idsBelow l -> decreasingList l -> valuesFetched' l ->
  cbPostStrict' l (mkCbState err l repo).
Proof.
  intros. split; [done|]. split; [done|]. split; [done|].
  split; [done | apply extends_refl].
Qed.

(** The parents of a commit that has just been put into the list. *)
Lemma commitsBefore_children_strict (fuel : nat) (id : sha1) (commit : Commit)
    (pr : option nat) (l l1 : List) (repo1 : Repository) (st : cbState) :
  (forall l parent id repo st,
      coherent repo -> idsBelow l -> decreasingList l -> valuesFetched' l ->
      (forall c, fetchCommit' id = Ok c -> anchorStrict parent l (commitTime c)) ->
      commitsBefore' fuel l parent id repo = Some st -> cbPostStrict' l st) ->
  fetchCommit' id = Ok commit ->
  coherent repo1 -> idsBelow l1 -> decreasingList l1 -> valuesFetched' l1 ->
  extends l l1 -> idsBelow l ->
  (forall t, (t < commitTime commit)%Z -> anchorStrict pr l1 t) ->
  (pr = None -> (ParentCount commit <= 1)%nat) ->
  commitsBeforeParents (fun l' id' repo' => commitsBefore' fuel l' pr id' repo')
    (parents commit) l1 repo1 = Some st ->
  cbPostStrict' l st.
Proof.
  intros IH Hf Hco1 Hb1 Hs1 Hvf1 Hext Hb Hanch Hone Hloop.
  apply (commitsBeforeParents_rule _
           (fun done l' repo' =>
              cbPostStrict' l1 (mkCbState None l' repo')
              /\ (done = [] -> l' = l1))
           (fun st' => cbPostStrict' l1 st')) in Hloop.
  - assert (Hpost : cbPostStrict' l1 st).
    { destruct st as [err l' repo']. cbn [cbErr cbList cbRepo] in Hloop.
      destruct err; [exact Hloop | now destruct Hloop]. }
    destruct Hpost as (? & ? & ? & ? & Hext'). split; [done|]. split; [done|].
    split; [done|]. split; [done|]. now apply (extends_trans l l1).
  - intros done p rest l' repo' st' Hids [(Hco' & Hb' & Hs' & Hvf' & Hext') Hinit] Hst'.
    cbn [cbList cbRepo] in *.
    assert (Hp : p ∈ parents commit).
    { rewrite Hids. apply elem_of_app. right. left. }
    assert (Hpost : cbPostStrict' l' st').
    { apply (IH l' pr p repo' st' Hco' Hb' Hs' Hvf'); [|exact Hst'].
      intros cp Hcp. pose proof (Hstrict id commit p cp Hf Hp Hcp) as Hlt.
      destruct pr as [a|].
      - apply (anchorStrict_extends a l1); [done..|]. now apply Hanch.
      - rewrite Hinit; [now apply Hanch|].
        specialize (Hone eq_refl). unfold ParentCount in Hone.
        rewrite Hids, length_app in Hone. simpl in Hone.
        destruct done; [done | simpl in Hone; lia]. }
    destruct Hpost as (Hco2 & Hb2 & Hs2 & Hvf2 & Hext2).
    assert (Hall : cbPostStrict' l1 st').
    { split; [done|]. split; [done|]. split; [done|]. split; [done|].
      now apply (extends_trans l1 l'). }
    destruct (cbErr st'); [exact Hall|]. split; [exact Hall|].
    intros Hnil. now destruct done.
  - split; [|done]. now apply cbPostStrict_same.
Qed.

(** What every call of [commitsBefore] keeps in such a history. *)
Lemma commitsBefore_strict (fuel : nat) :
  forall l parent id repo st,
    coherent repo -> idsBelow l -> decreasingList l -> valuesFetched' l ->
    (forall c, fetchCommit' id = Ok c -> anchorStrict parent l (commitTime c)) ->
    commitsBefore' fuel l parent id repo = Some st -> cbPostStrict' l st.
Proof.
  induction fuel as [|fuel IH]; intros l parent id repo st Hco Hb Hs Hvf Hanch Hrun;
    [discriminate|].
  cbn [commitsBefore] in Hrun.
  destruct (getCommit_coherent GetRawObject parseCommitData id repo Hco)
    as [Hr Hco1].
  destruct (getCommit GetRawObject parseCommitData id repo) as [r repo1].
  simpl in Hr, Hco1. subst r.
  destruct (fetchCommit' id) as [commit|err] eqn:Hf.
  2: { injection Hrun as <-. now apply cbPostStrict_same. }
  specialize (Hanch commit eq_refl).
  assert (Hid : Id commit = id) by now apply (fetchCommit_Id _ _ _ _ Hf).
  assert (Hfc : fetchCommit' (Id commit) = Ok commit) by now rewrite Hid.
  assert (Hcount : forall e : Element,
             (if (1 <? ParentCount commit)%nat then Some (elemId e) else parent)
             = None -> (ParentCount commit <= 1)%nat).
  { intros e. destruct (1 <? ParentCount commit)%nat eqn:Hc; [discriminate|].
    intros _. now apply Nat.ltb_ge in Hc. }
  destruct parent as [a|].
  - destruct Hanch as [Hex Hall].
    destruct (locate_is_Some a [] (elements l) Hex) as [[[before in_] after] Hloc].
    rewrite Hloc in Hrun. apply locate_spec in Hloc as [Hel Ha]. simpl in Hel.
    assert (Hin : in_ ∈ elements l).
    { rewrite Hel. apply elem_of_app. right. left. }
    destruct (scanForSlot commit before in_ after) as [[[b' in'] a']|] eqn:Hscan.
    2: { injection Hrun as <-. now apply cbPostStrict_same. }
    apply scanForSlot_strict in Hscan as (Happ & Hlt & Hnext).
    2: { unfold decreasingList in Hs. rewrite Hel, fmap_app in Hs.
         now apply decreasing_suffix in Hs. }
    2: { intros x Hx Hdate. rewrite Hid.
         assert (Hxl : x ∈ elements l).
         { rewrite Hel. apply elem_of_app. now right. }
         apply (Hdistinct (Id (Value x)) id (Value x) commit);
           [now apply Hvf | exact Hf | exact Hdate]. }
    2: { left. now apply Hall. }
    cbn [InsertAfter] in Hrun.
    set (e := mkElement (allocated l) commit) in *.
    set (l1 := mkList (b' ++ in' :: e :: a') (S (allocated l))) in *.
    destruct (new_cell l commit (b' ++ [in']) a' Hb) as (Hb1 & Hext & Hnew).
    { rewrite <- app_assoc. simpl. congruence. }
    rewrite <- app_assoc in Hb1, Hext, Hnew. simpl in Hb1, Hext, Hnew.
    fold e in Hb1, Hext, Hnew. fold l1 in Hb1, Hext, Hnew.
    apply (commitsBefore_children_strict fuel id commit
             (if (1 <? ParentCount commit)%nat then Some (elemId e) else Some a)
             l l1 repo1 st IH Hf Hco1 Hb1);
      [| |exact Hext|exact Hb| |apply Hcount|exact Hrun].
    + unfold decreasingList, l1. cbn [elements].
      rewrite fmap_app, !fmap_cons.
      apply decreasing_insert; [| exact Hlt |].
      * unfold decreasingList in Hs.
        rewrite Hel, <- Happ, fmap_app, fmap_cons in Hs. exact Hs.
      * destruct a'; [done | exact Hnext].
    + unfold l1, e.
      replace (b' ++ in' :: mkElement (allocated l) commit :: a')
        with ((b' ++ [in']) ++ mkElement (allocated l) commit :: a')
        by (now rewrite <- app_assoc).
      apply (valuesFetched_insert l); [|done..].
      rewrite <- app_assoc. simpl. congruence.
    + intros t Ht. destruct (1 <? ParentCount commit)%nat.
      * apply (anchorOk_strict _ _ (commitTime commit)); [exact Ht|].
        apply Hnew. lia.
      * apply (anchorStrict_lt _ _ (commitTime commit)); [lia|].
        apply (anchorStrict_extends a l); [done..|]. now split.
  - cbn [PushBack] in Hrun.
    set (e := mkElement (allocated l) commit) in *.
    set (l1 := mkList (elements l ++ [e]) (S (allocated l))) in *.
    destruct (new_cell l commit (elements l) [] Hb) as (Hb1 & Hext & Hnew).
    { now rewrite app_nil_r. }
    fold e in Hb1, Hext, Hnew. fold l1 in Hb1, Hext, Hnew.
    apply (commitsBefore_children_strict fuel id commit
             (if (1 <? ParentCount commit)%nat then Some (elemId e) else None)
             l l1 repo1 st IH Hf Hco1 Hb1);
      [| |exact Hext|exact Hb| |apply Hcount|exact Hrun].
    + unfold decreasingList, l1. cbn [elements]. rewrite fmap_app.
      apply decreasing_snoc; [exact Hs|].
      intros x (y & -> & Hy)%list_elem_of_fmap. now apply Hanch.
    + unfold l1, e.
      apply (valuesFetched_insert l); [now rewrite app_nil_r | done..].
    + intros t Ht. destruct (1 <? ParentCount commit)%nat.
      * apply (anchorOk_strict _ _ (commitTime commit)); [exact Ht|].
        apply Hnew. lia.
      * intros x Hx. unfold l1 in Hx. cbn [elements] in Hx.
        apply elem_of_app in Hx as [Hx|Hx].
        -- specialize (Hanch x Hx). lia.
        -- apply list_elem_of_singleton in Hx as ->. exact Ht.
Qed.

(** X16. In a history in which every commit is dated after its parents and no
    two commits bear the same date, the list of [getCommitsBefore] is in
    order of date, from the latest down, and no commit is in it twice. *)
Theorem getCommitsBefore_each_once (fuel : nat) (id : sha1)
    (repo : Repository) (st : cbState) :
  coherent repo ->
  getCommitsBefore GetRawObject parseCommitData fuel id repo = Some st ->
  decreasing (commitTime <$> listValues (cbList st))
  /\ NoDup (listValues (cbList st)).
Proof.
  intros Hco Hrun. unfold getCommitsBefore in Hrun.
  destruct (commitsBefore_strict fuel New None id repo st Hco)
    as (_ & _ & Hs & _); [| | | |exact Hrun|].
  - intros e He. now apply elem_of_nil in He.
  - exact I.
  - intros e He. now apply elem_of_nil in He.
  - intros c _ e He. now apply elem_of_nil in He.
  - assert (Hd : decreasing (commitTime <$> listValues (cbList st))).
    { unfold listValues. rewrite <- list_fmap_compose. exact Hs. }
    split; [exact Hd|]. apply (NoDup_fmap_1 commitTime).
    now apply decreasing_NoDup.
Qed.

End ExactlyOnce.

Lemma diamond_datesStrict :
  datesStrict Examples.diamondObjects Examples.decode.
Proof.
  intros id c p c' Hc Hp Hc'.
  pose proof (diamond_fetch id c Hc) as Hid.
  repeat (apply elem_of_cons in Hid as [->|Hid]);
    try (now apply elem_of_nil in Hid);
    vm_compute in Hc; injection Hc as <-; cbn [parents] in Hp;
    repeat (apply elem_of_cons in Hp as [->|Hp]);
    try (now apply elem_of_nil in Hp);
    vm_compute in Hc'; injection Hc' as <-; vm_compute; reflexivity.
Qed.

Lemma diamond_datesDistinct :
  datesDistinct Examples.diamondObjects Examples.decode.
Proof.
  intros k k' c c' Hc Hc' Hdate.
  pose proof (diamond_fetch k c Hc) as Hk.
  pose proof (diamond_fetch k' c' Hc') as Hk'.
  repeat (apply elem_of_cons in Hk as [->|Hk]);
    try (now apply elem_of_nil in Hk);
    repeat (apply elem_of_cons in Hk' as [->|Hk']);
    try (now apply elem_of_nil in Hk');
    try reflexivity;
    vm_compute in Hc; injection Hc as <-;
    vm_compute in Hc'; injection Hc' as <-;
    vm_compute in Hdate; discriminate.
Qed.

(** The diamond: four commits, four dates going down. *)
Lemma getCommitsBefore_each_once_witness :
  decreasing (commitTime <$> listValues (cbList MoreExamples.diamondAloneState))
  /\ NoDup (listValues (cbList MoreExamples.diamondAloneState)).
Proof.
  apply (getCommitsBefore_each_once Examples.diamondObjects Examples.decode
           diamond_datesStrict diamond_datesDistinct 5 1%N Examples.fresh).
  - apply cacheCoherent_fresh.
  - vm_compute. reflexivity.
Defined.

(** ** The cache after the list has been built *)

Section CacheWarm.

Variable GetRawObject : sha1 -> result ReadCloser.
Variable parseCommitData : string -> result Commit.

Local Notation "'fetchCommit''" := (fetchCommit GetRawObject parseCommitData).
Local Notation "'coherent'" := (cacheCoherent GetRawObject parseCommitData).
Local Notation "'commitsBefore''" := (commitsBefore GetRawObject parseCommitData).

Lemma cachedAll_grows (l : List) (repo repo' : Repository) :
  cacheGrows repo repo' -> cachedAll l repo -> cachedAll l repo'.
Proof. intros Hg Hc e He. apply Hg, Hc, He. Qed.

(** A call of [commitsBefore] keeps the entries of the cache, and the
    commits it puts into the list are in the cache. *)
Lemma commitsBefore_caches (fuel : nat) :
  forall l parent id repo st,
    coherent repo ->
    commitsBefore' fuel l parent id repo = Some st ->
    cacheGrows repo (cbRepo st)
    /\ (cachedAll l repo -> cachedAll (cbList st) (cbRepo st)).
Proof.
  induction fuel as [|fuel IH]; intros l parent id repo st Hco Hrun;
    [discriminate|].
  destruct (commitsBefore_cases GetRawObject parseCommitData
              fuel l parent id repo st Hco Hrun)
    as (repo1 & Hrepo1 & Hco1 & Hcases).
  assert (Hg1 : cacheGrows repo repo1).
  { intros k c Hk. subst repo1. now apply getCommit_cache_grows. }
  destruct (fetchCommit' id) as [commit|err] eqn:Hf.
  2: { subst st. split; [exact Hg1 | now apply cachedAll_grows]. }
  destruct Hcases as [(_ & _ & ->)|(pre & post & Hel & _ & _ & Hloop)].
  { split; [exact Hg1 | now apply cachedAll_grows]. }
  assert (Hid : Id commit = id) by now apply (fetchCommit_Id _ _ _ _ Hf).
  assert (Hnew : cacheLookup repo1 (Id commit) = Some commit).
  { rewrite Hid. subst repo1. now apply getCommit_caches. }
  apply (commitsBeforeParents_rule _
           (fun _ l' repo' =>
              coherent repo' /\ cacheGrows repo1 repo'
              /\ (cachedAll l repo -> cachedAll l' repo'))
           (fun st' =>
              cacheGrows repo1 (cbRepo st')
              /\ (cachedAll l repo -> cachedAll (cbList st') (cbRepo st'))))
    in Hloop.
  - assert (Hboth : cacheGrows repo1 (cbRepo st)
                    /\ (cachedAll l repo -> cachedAll (cbList st) (cbRepo st))).
    { destruct (cbErr st); [exact Hloop | now destruct Hloop as (_ & ? & ?)]. }
    destruct Hboth as [Hg Hc]. split; [|exact Hc].
    intros k c Hk. apply Hg, Hg1, Hk.
  - intros done p rest l' repo' st' _ (Hco' & Hg' & Hc') Hst'.
    destruct (IH _ _ _ _ _ Hco' Hst') as [Hg2 Hc2].
    destruct (commitsBefore_grows GetRawObject parseCommitData
                _ _ _ _ _ _ Hco' Hst') as [_ Hco2].
    assert (Hboth : cacheGrows repo1 (cbRepo st')
                    /\ (cachedAll l repo -> cachedAll (cbList st') (cbRepo st'))).
    { split; [intros k c Hk; apply Hg2, Hg', Hk|].
      intros Hl. apply Hc2, Hc', Hl. }
    destruct (cbErr st'); [exact Hboth|]. split; [exact Hco2 | exact Hboth].
  - split; [exact Hco1|]. split; [now intros k c Hk|].
    intros Hl x. cbn [elements]. rewrite elem_of_app, elem_of_cons.
    intros [Hx|[->|Hx]]; [|exact Hnew|];
      apply Hg1, Hl; rewrite Hel, elem_of_app; tauto.
Qed.

(** X17. Building the list fills the cache: on the handle as [getCommitsBefore]
    leaves it, with an error or without, [getCommit] of any commit of the
    list is a hit, which returns that commit and leaves the handle, its
    record of I/O included, as it is. *)
Theorem getCommitsBefore_warms_cache (fuel : nat) (id : sha1)
    (repo : Repository) (st : cbState) (c : Commit) :
  coherent repo ->
  getCommitsBefore GetRawObject parseCommitData fuel id repo = Some st ->
  c ∈ listValues (cbList st) ->
  getCommit GetRawObject parseCommitData (Id c) (cbRepo st) = (Ok c, cbRepo st).
Proof.
  intros Hco Hrun (e & -> & He)%list_elem_of_fmap.
  destruct (commitsBefore_caches fuel New None id repo st Hco Hrun) as [_ Hc].
  apply getCommit_hit, Hc; [|exact He].
  intros x Hx. now apply elem_of_nil in Hx.
Qed.

End CacheWarm.

(** The root of the diamond, after the list of the merge commit. *)
Lemma getCommitsBefore_warms_cache_witness :
  getCommit Examples.objects Examples.decode 4%N
    (cbRepo MoreExamples.diamondState)
  = (Ok Examples.commitR, cbRepo MoreExamples.diamondState).
Proof.
  apply (getCommitsBefore_warms_cache Examples.objects Examples.decode 5 1%N
           Examples.fresh MoreExamples.diamondState Examples.commitR).
  - apply cacheCoherent_fresh.
  - vm_compute. reflexivity.
  - vm_compute. repeat constructor.
Defined.
